(** * ecs-images: which container images run in an ECS cluster, and who owns them

    A shallow embedding of [main.go].  The program is a four-stage pipeline:
    service enumeration, a bounded pool listing the tasks of every service,
    a sequential batched description of the tasks, and a second bounded pool
    describing every task definition and merging its images into the
    image-to-services map.

    Go strings are byte strings and are modelled by [string]; Go maps used
    as dictionaries are [gmap], maps used as sets ([map[string]struct{}])
    are [gset]; SDK pointer fields are [option] values whose dereference
    panics on [None].  What the program does not decide is an argument of
    [main]: the answers of the ECS service, the interleaving of the
    goroutines of each pool and the order in which a range over a map
    yields its keys.  The structs [ServiceTask] and [TaskInfo] of the
    source are declared and never used; they are left out. *)

From Stdlib Require Import Ascii String.
From stdpp Require Import gmap strings list fin_maps pretty.


(** ** Short names: [splitArn] and the indexing of its last element *)

Module Arn.

Definition slash : ascii := "/"%char.

(** The loop of [splitArn] (lines 194-199).  [n] counts the iterations that
    remain, [i] is the loop index, [start] and [out] are the two loop
    variables; the state after the loop is returned. *)
Fixpoint splitArn_loop (arn : string) (n i start : nat) (out : list string)
  : list string * nat :=
  match n with
  | 0 => (out, start)
  | S n' =>
      match String.get i arn with
      | Some c =>
          if Ascii.eqb c slash
          then splitArn_loop arn n' (S i) (S i)
                 (out ++ [String.substring start (i - start) arn])
          else splitArn_loop arn n' (S i) start out
      | None => (out, start)
      end
  end.

(** [splitArn] (lines 190-205): the loop runs for [i] from [0] to
    [len(arn)], then the pending segment is appended when it is not empty. *)
Definition splitArn (arn : string) : list string :=
  let '(out, start) := splitArn_loop arn (String.length arn) 0 0 [] in
  if decide (start < String.length arn)
  then out ++ [String.substring start (String.length arn - start) arn]
  else out.

(** [parts[len(parts)-1]] (line 64): [None] is the run-time panic of an
    index out of range, which happens exactly when [parts] is empty. *)
Definition shortName (arn : string) : option string := last (splitArn arn).

(** The wording of the specification: the identifier split on ['/'] (one
    more segment than there are separators) and its last non-empty
    segment. *)
Fixpoint split_on (c : ascii) (s : string) : list string :=
  match s with
  | EmptyString => [EmptyString]
  | String a s' =>
      if Ascii.eqb a c then EmptyString :: split_on c s'
      else match split_on c s' with
           | x :: xs => String a x :: xs
           | [] => [String a EmptyString]
           end
  end.

Definition last_nonempty (l : list string) : option string :=
  last (filter (λ s, s ≠ EmptyString) l).

Definition spec_shortName (arn : string) : option string :=
  last_nonempty (split_on slash arn).

(** A string of [n] separators. *)
Fixpoint slashes (n : nat) : string :=
  match n with
  | 0 => EmptyString
  | S n' => String slash (slashes n')
  end.

(** Proof device: the same scan by structural recursion on the text that
    remains, carrying the pending segment [cur]; it yields the finished
    segments and the segment pending at the end of the text. *)
Fixpoint scan (cur rest : string) : list string * string :=
  match rest with
  | EmptyString => ([], cur)
  | String a r =>
      if Ascii.eqb a slash
      then let '(l, f) := scan EmptyString r in (cur :: l, f)
      else scan (cur +:+ String a EmptyString) r
  end.

End Arn.

(** ** The bounded worker pool

    Both pools of [main] are the same code (lines 73-99 and 142-172): a
    buffered channel of capacity 5 used as a semaphore, a wait group, a
    mutex around the writes to the shared results and a progress bar.
    The pool is modelled as a transition system.  The main goroutine
    ranges over the items; a goroutine is launched per item once a slot
    of the semaphore is free.  A goroutine performs its call, then the
    mutex-protected writes its response gives rise to (each one atomic),
    then [bar.Add(1)], then, deferred, [<-sem] and [wg.Done()].  A
    dereference of a nil pointer of the response crashes the process. *)

Module Pool.

Definition limit : nat := 5.

(** What a goroutine does once its call has returned: a write to the
    shared results between [mu.Lock()] and [mu.Unlock()], or the
    dereference of a nil pointer. *)
Inductive Instr (Op : Type) : Type :=
| Crit (op : Op)
| NilDeref.
Arguments Crit {Op} op.
Arguments NilDeref {Op}.

(** Where a launched goroutine stands: its call has not returned yet;
    the call has returned and [todo] remains to be done before
    [bar.Add(1)]; [bar.Add(1)] is done; the deferred [<-sem] is done; the
    deferred [wg.Done()] is done. *)
Inductive Phase (Op : Type) : Type :=
| Calling
| Working (todo : list (Instr Op))
| Added
| Released
| Finished.
Arguments Calling {Op}.
Arguments Working {Op} todo.
Arguments Added {Op}.
Arguments Released {Op}.
Arguments Finished {Op}.

(** The main goroutine: before the iteration of index [i] of its loop
    (before [wg.Wait()] when the items are exhausted), or past
    [wg.Wait()]. *)
Inductive MainPc : Type :=
| Spawning (i : nat)
| Returned.

(** A scheduling decision: the main goroutine or the goroutine of the
    item of index [k] takes its next step. *)
Inductive Choice : Type :=
| MainStep
| WorkerStep (k : nat).

(** The state of the pool.  The goroutine of index [k] is the one launched
    for the item of index [k].  [calls] and [trace] are history: the
    items whose call has been issued and the writes performed, in
    order. *)
Record State (Item Op Shared : Type) : Type := mkState {
  pc : MainPc;
  workers : list (Phase Op);
  shared : Shared;
  bar : nat;
  calls : list Item;
  trace : list Op;
  crashed : bool
}.
Arguments mkState {Item Op Shared}.
Arguments pc {Item Op Shared}.
Arguments workers {Item Op Shared}.
Arguments shared {Item Op Shared}.
Arguments bar {Item Op Shared}.
Arguments calls {Item Op Shared}.
Arguments trace {Item Op Shared}.
Arguments crashed {Item Op Shared}.

Section Pool.
Context {Item Op Shared : Type}.
(** What a goroutine does with the response of its call, and the effect
    of one protected write on the shared results. *)
Variable prog : Item → list (Instr Op).
Variable apply : Op → Shared → Shared.
Variable items : list Item.

Definition holds_slot (p : Phase Op) : bool :=
  match p with
  | Calling | Working _ | Added => true
  | Released | Finished => false
  end.

Definition is_finished (p : Phase Op) : bool :=
  match p with
  | Finished => true
  | _ => false
  end.

Definition bar_added (p : Phase Op) : bool :=
  match p with
  | Added | Released | Finished => true
  | _ => false
  end.

(** Number of goroutines between [sem <- struct{}{}] and [<-sem]. *)
Definition holders (ws : list (Phase Op)) : nat :=
  length (filter (λ p, holds_slot p = true) ws).

Definition init (s : Shared) : State Item Op Shared :=
  mkState (Spawning 0) [] s 0 [] [] false.

Definition set_worker (k : nat) (p : Phase Op) (st : State Item Op Shared)
  : State Item Op Shared :=
  mkState (pc st) (<[k:=p]> (workers st)) (shared st) (bar st) (calls st)
    (trace st) (crashed st).

(** One step of the main goroutine: [wg.Add(1); sem <- struct{}{}; go ...]
    while items remain (blocked while the channel is full), then
    [wg.Wait()] (blocked until every goroutine has called [wg.Done()]). *)
Definition main_step (st : State Item Op Shared) : option (State Item Op Shared) :=
  match pc st with
  | Spawning i =>
      match items !! i with
      | Some _ =>
          if decide (holders (workers st) < limit)
          then Some (mkState (Spawning (S i)) (workers st ++ [Calling])
                       (shared st) (bar st) (calls st) (trace st) (crashed st))
          else None
      | None =>
          if forallb is_finished (workers st)
          then Some (mkState Returned (workers st) (shared st) (bar st)
                       (calls st) (trace st) (crashed st))
          else None
      end
  | Returned => None
  end.

(** One step of the goroutine launched for the item of index [k]. *)
Definition worker_step (k : nat) (st : State Item Op Shared)
  : option (State Item Op Shared) :=
  match workers st !! k with
  | Some Calling =>
      match items !! k with
      | Some x =>
          Some (mkState (pc st) (<[k:=Working (prog x)]> (workers st))
                  (shared st) (bar st) (calls st ++ [x]) (trace st) (crashed st))
      | None => None
      end
  | Some (Working (Crit op :: todo)) =>
      Some (mkState (pc st) (<[k:=Working todo]> (workers st))
              (apply op (shared st)) (bar st) (calls st) (trace st ++ [op])
              (crashed st))
  | Some (Working (NilDeref :: _)) =>
      Some (mkState (pc st) (workers st) (shared st) (bar st) (calls st)
              (trace st) true)
  | Some (Working []) =>
      Some (mkState (pc st) (<[k:=Added]> (workers st)) (shared st)
              (S (bar st)) (calls st) (trace st) (crashed st))
  | Some Added => Some (set_worker k Released st)
  | Some Released => Some (set_worker k Finished st)
  | Some Finished | None => None
  end.

(** [None]: the chosen goroutine cannot move (blocked, not launched, or
    over), or the process has crashed. *)
Definition step (c : Choice) (st : State Item Op Shared)
  : option (State Item Op Shared) :=
  if crashed st then None
  else match c with
       | MainStep => main_step st
       | WorkerStep k => worker_step k st
       end.

Fixpoint run (cs : list Choice) (st : State Item Op Shared)
  : option (State Item Op Shared) :=
  match cs with
  | [] => Some st
  | c :: cs' =>
      match step c st with
      | Some st' => run cs' st'
      | None => None
      end
  end.

(** The protected writes of a goroutine's program. *)
Fixpoint crits (l : list (Instr Op)) : list Op :=
  match l with
  | [] => []
  | Crit op :: l' => op :: crits l'
  | NilDeref :: _ => []
  end.

Fixpoint panics (l : list (Instr Op)) : bool :=
  match l with
  | [] => false
  | Crit _ :: l' => panics l'
  | NilDeref :: _ => true
  end.

(** The schedule that runs the goroutines one after the other, used to
    show that the pool can always run to its end. *)
Fixpoint steps_of (k : nat) (l : list (Instr Op)) : list Choice :=
  match l with
  | [] => [WorkerStep k; WorkerStep k; WorkerStep k]
  | Crit _ :: l' => WorkerStep k :: steps_of k l'
  | NilDeref :: _ => [WorkerStep k]
  end.

Fixpoint seq_from (k : nat) (xs : list Item) : list Choice :=
  match xs with
  | [] => [MainStep]
  | x :: xs' =>
      if panics (prog x)
      then MainStep :: WorkerStep k :: steps_of k (prog x)
      else MainStep :: WorkerStep k :: steps_of k (prog x) ++ seq_from (S k) xs'
  end.

Definition seq_sched : list Choice := seq_from 0 items.

(** *** What holds in every state of a pool *)

(** The items whose call has been issued, the protected writes that the
    launched goroutines have still to perform, and the relation between
    the phase of a goroutine and the program of its item. *)
Definition attempted_one (p : Phase Op) (x : Item) : list Item :=
  match p with
  | Calling => []
  | _ => [x]
  end.

Definition attempted (ws : list (Phase Op)) : list Item :=
  concat (zip_with attempted_one ws items).

Definition pending_one (p : Phase Op) (x : Item) : list Op :=
  match p with
  | Calling => crits (prog x)
  | Working todo => crits todo
  | _ => []
  end.

Definition pending (ws : list (Phase Op)) : list Op :=
  concat (zip_with pending_one ws items).

Definition worker_ok (p : Phase Op) (x : Item) : Prop :=
  match p with
  | Calling => True
  | Working todo => panics (prog x) = panics todo
  | _ => panics (prog x) = false
  end.

Record Inv (s0 : Shared) (st : State Item Op Shared) : Prop := mkInv {
  inv_len : length (workers st) ≤ length items;
  inv_pc :
    match pc st with
    | Spawning i => length (workers st) = i
    | Returned =>
        length (workers st) = length items ∧
        Forall (λ p, p = Finished) (workers st) ∧ crashed st = false
    end;
  inv_sem : holders (workers st) ≤ limit;
  inv_bar : bar st = length (filter (λ p, bar_added p = true) (workers st));
  inv_calls : calls st ≡ₚ attempted (workers st);
  inv_shared : shared st = foldl (λ s op, apply op s) s0 (trace st);
  inv_trace :
    trace st ++ pending (workers st) ≡ₚ
    concat (map (λ x, crits (prog x)) (take (length (workers st)) items));
  inv_ok :
    ∀ k p x, workers st !! k = Some p → items !! k = Some x → worker_ok p x
}.






End Pool.
End Pool.

(** ** The ECS client, as far as [main] uses it

    The answers of the service for the cluster of the run: every
    operation is a function of its request, and [None] is a call that
    returns an error.  The pointer fields of the SDK's response types are
    options. *)

Record Task : Type := mkTask {
  TaskArn : option string;
  TaskDefinitionArn : option string
}.

Record ContainerDefinition : Type := mkContainer {
  Image : option string
}.

Record Client : Type := mkClient {
  (** what the successive [NextPage] calls of the paginator return *)
  ListServicesPages : list (option (list string));
  ListTasks : string → option (list string);
  DescribeTasks : list string → option (list Task);
  (** the inner option is the [TaskDefinition] pointer of the output *)
  DescribeTaskDefinition : string → option (option (list ContainerDefinition))
}.

Record Env : Type := mkEnv {
  cluster : string;
  configLoads : bool;
  client : Client
}.

(** ** Stage 1: service enumeration and short names (lines 46-66) *)

(** The paginator loop; [None] is the [log.Fatalf] of a failed page. *)
Fixpoint listServices (pages : list (option (list string)))
    (serviceArns : list string) : option (list string) :=
  match pages with
  | [] => Some serviceArns
  | None :: _ => None
  | Some page :: pages' => listServices pages' (serviceArns ++ page)
  end.

(** The loop of lines 62-66 over [serviceArns] from index [i] on; [None]
    is the panic of [parts[len(parts)-1]]. *)
Fixpoint names_loop (arns : list string) (i : nat) (serviceNames : list string)
    (serviceNameToArn : gmap string string)
  : option (list string * gmap string string) :=
  match arns with
  | [] => Some (serviceNames, serviceNameToArn)
  | arn :: arns' =>
      match Arn.shortName arn with
      | None => None
      | Some name =>
          names_loop arns' (S i) (<[i:=name]> serviceNames)
            (<[name:=arn]> serviceNameToArn)
      end
  end.

Definition deriveNames (serviceArns : list string)
  : option (list string * gmap string string) :=
  names_loop serviceArns 0 (replicate (length serviceArns) "") ∅.

(** ** Stage 2: the tasks of every service (lines 68-100) *)

(** The write under the mutex of lines 89-94. *)
Inductive ListOp : Type :=
| AddTasks (svcName : string) (tasks : list string).

Definition addTasks (op : ListOp) (s : list string * gmap string string)
  : list string * gmap string string :=
  match op with
  | AddTasks svcName tasks =>
      (s.1 ++ tasks, foldl (λ m t, <[t:=svcName]> m) s.2 tasks)
  end.

Definition op_tasks (op : ListOp) : list string :=
  match op with AddTasks _ tasks => tasks end.

Definition listTasks_prog (c : Client) (svcName : string)
  : list (Pool.Instr ListOp) :=
  match ListTasks c svcName with
  | Some tasks => [Pool.Crit (AddTasks svcName tasks)]
  | None => []
  end.

Definition listTasksPool (c : Client) (serviceNames : list string)
    (sched : list Pool.Choice)
  : option (Pool.State string ListOp (list string * gmap string string)) :=
  Pool.run (listTasks_prog c) addTasks serviceNames sched (Pool.init ([], ∅)).

(** ** Stage 3: batched description of the tasks (lines 107-133) *)

Record DescState : Type := mkDesc {
  taskDefArns : gset string;
  taskDefToService : gmap string (gset string);
  (** units added to the progress bar *)
  described : nat;
  (** the requests issued to [DescribeTasks], in order *)
  requests : list (list string)
}.

(** The body of the loop of lines 123-130 for a task whose two pointers
    are set (lines 124-129): the definition joins the set of definitions,
    its entry is created when absent, and the service that the reverse
    index gives for the task (the empty string when it has none) joins
    the entry. *)
Definition record_task (taskToService : gmap string string) (t td : string)
    (st : gset string * gmap string (gset string))
  : gset string * gmap string (gset string) :=
  let serviceName := default "" (taskToService !! t) in
  let owners1 :=
    match st.2 !! td with
    | Some _ => st.2
    | None => <[td:=∅]> st.2
    end in
  ({[td]} ∪ st.1, alter (λ s, {[serviceName]} ∪ s) td owners1).

(** The loop of lines 123-130 over the tasks of one response; [None] is
    the dereference of a nil [TaskDefinitionArn] or [TaskArn]. *)
Fixpoint record_tasks (taskToService : gmap string string) (tasks : list Task)
    (st : gset string * gmap string (gset string))
  : option (gset string * gmap string (gset string)) :=
  match tasks with
  | [] => Some st
  | task :: tasks' =>
      match TaskDefinitionArn task with
      | None => None
      | Some td =>
          match TaskArn task with
          | None => None
          | Some t => record_tasks taskToService tasks' (record_task taskToService t td st)
          end
      end
  end.

(** The identifiers of a described task, when both pointers are set. *)
Definition task_ids (task : Task) : option (string * string) :=
  match TaskArn task, TaskDefinitionArn task with
  | Some t, Some td => Some (t, td)
  | _, _ => None
  end.

(** Proof devices: the recording of a list of identifier pairs, and the
    pairs of the successful responses to a list of requests. *)
Definition record_all (taskToService : gmap string string)
    (recs : list (string * string))
    (st : gset string * gmap string (gset string))
  : gset string * gmap string (gset string) :=
  foldl (λ st (r : string * string), record_task taskToService r.1 r.2 st) st recs.

Definition recorded_of (c : Client) (bs : list (list string))
  : list (string * string) :=
  concat (map (λ b, match DescribeTasks c b with
                    | Some tasks => omap task_ids tasks
                    | None => []
                    end) bs).

Definition batchSize : nat := 100.

(** The loop of lines 111-132 from index [i] on; [n] bounds the number of
    iterations and is not reached when it is at least the length of
    [taskArns]. *)
Fixpoint describe_loop (c : Client) (taskToService : gmap string string)
    (taskArns : list string) (n i : nat) (st : DescState) : option DescState :=
  match n with
  | 0 => Some st
  | S n' =>
      if decide (i < length taskArns) then
        let end_ :=
          if decide (length taskArns < i + batchSize) then length taskArns
          else i + batchSize in
        let batch := take (end_ - i) (drop i taskArns) in
        let reqs := requests st ++ [batch] in
        match DescribeTasks c batch with
        | None =>
            describe_loop c taskToService taskArns n' (i + batchSize)
              (mkDesc (taskDefArns st) (taskDefToService st) (described st) reqs)
        | Some tasks =>
            match record_tasks taskToService tasks
                    (taskDefArns st, taskDefToService st) with
            | None => None
            | Some (defs, owners) =>
                describe_loop c taskToService taskArns n' (i + batchSize)
                  (mkDesc defs owners (S (described st)) reqs)
            end
        end
      else Some st
  end.

Definition describeTasks (c : Client) (taskToService : gmap string string)
    (taskArns : list string) : option DescState :=
  describe_loop c taskToService taskArns (length taskArns) 0 (mkDesc ∅ ∅ 0 []).

(** ** Stage 4: the images of every task definition (lines 135-173) *)

(** The write under the mutex of lines 159-166, for one container. *)
Inductive ImageOp : Type :=
| Owners (image : string) (services : gset string).

Definition mergeImage (op : ImageOp) (imageToServices : gmap string (gset string))
  : gmap string (gset string) :=
  match op with
  | Owners image services =>
      let m :=
        match imageToServices !! image with
        | Some _ => imageToServices
        | None => <[image:=∅]> imageToServices
        end in
      set_fold (λ svc acc, alter (λ s, {[svc]} ∪ s) image acc) m services
  end.

(** The loop of lines 157-167; the image pointer is dereferenced before
    the mutex is taken. *)
Fixpoint containers_prog (services : gset string)
    (containers : list ContainerDefinition) : list (Pool.Instr ImageOp) :=
  match containers with
  | [] => []
  | container :: containers' =>
      match Image container with
      | None => [Pool.NilDeref]
      | Some image =>
          Pool.Crit (Owners image services) :: containers_prog services containers'
      end
  end.

Definition describeDef_prog (c : Client) (owners : gmap string (gset string))
    (tdArn : string) : list (Pool.Instr ImageOp) :=
  match DescribeTaskDefinition c tdArn with
  | None => []
  | Some None => [Pool.NilDeref]
  | Some (Some containers) =>
      containers_prog (default ∅ (owners !! tdArn)) containers
  end.

Definition describeDefsPool (c : Client) (owners : gmap string (gset string))
    (taskDefList : list string) (sched : list Pool.Choice)
  : option (Pool.State string ImageOp (gmap string (gset string))) :=
  Pool.run (describeDef_prog c owners) mergeImage taskDefList sched (Pool.init ∅).

(** ** Reporting (lines 175-187) *)

(** The lines printed for one entry of the map; [order] is the order in
    which the range over [services] yields its elements. *)
Definition report_entry (image : string) (services : gset string)
    (order : list string) : list string :=
  [image] ++
  (if decide (0 < size services)
   then "  Services:" :: map (λ svc, "    - " +:+ svc) order
   else ["  No active services using this image"]) ++
  [""].

(** ** The program *)

Record Final : Type := mkFinal {
  serviceNames : list string;
  taskArns : list string;
  taskToService : gmap string string;
  definitions : DescState;
  imageToServices : gmap string (gset string)
}.

Inductive Status : Type :=
| Success (report : option Final)   (* [main] returns: exit status 0 *)
| ExitFailure                       (* [os.Exit(1)] *)
| LogFatal                          (* [log.Fatalf]: exit status 1 *)
| RuntimePanic.                     (* run-time panic: exit status 2 *)

Record Result : Type := mkResult {
  stdout : list string;
  status : Status
}.

(** What the run does not decide: the interleaving of the goroutines of
    the two pools and the order in which the range over [taskDefArns]
    yields its keys. *)
Record Sched : Type := mkSched {
  sched1 : list Pool.Choice;
  defOrder : list string;
  sched2 : list Pool.Choice
}.

Inductive PoolEnd (Shared : Type) : Type :=
| Crashed
| Completed (s : Shared) (bar : nat).
Arguments Crashed {Shared}.
Arguments Completed {Shared} s bar.

(** The pool seen from [main]: [None] when the schedule does not run the
    pool to the return of [wg.Wait()] or to a crash. *)
Definition pool_end {Item Op Shared : Type}
    (o : option (Pool.State Item Op Shared)) : option (PoolEnd Shared) :=
  match o with
  | None => None
  | Some st =>
      if Pool.crashed st then Some Crashed
      else match Pool.pc st with
           | Pool.Returned => Some (Completed (Pool.shared st) (Pool.bar st))
           | Pool.Spawning _ => None
           end
  end.

(** [main] under a schedule; [None] when the schedule is not one of a
    whole run.  The lines of the report itself follow [stdout] and are
    those of [report_entry] for the entries of [imageToServices]. *)
Definition main (env : Env) (σ : Sched) : option Result :=
  if decide (cluster env = "") then
    Some (mkResult ["--cluster is required"] ExitFailure)
  else if negb (configLoads env) then Some (mkResult [] LogFatal)
  else
    let out1 := ["Fetching services in cluster '" +:+ cluster env +:+ "'..."] in
    match listServices (ListServicesPages (client env)) [] with
    | None => Some (mkResult out1 LogFatal)
    | Some serviceArns =>
        if decide (length serviceArns = 0) then
          Some (mkResult (out1 ++ ["No services found."]) (Success None))
        else
          match deriveNames serviceArns with
          | None => Some (mkResult out1 RuntimePanic)
          | Some (names, _) =>
              let out2 := out1 ++ ["Fetching task ARNs for each service..."] in
              match pool_end (listTasksPool (client env) names (sched1 σ)) with
              | None => None
              | Some Crashed => Some (mkResult out2 RuntimePanic)
              | Some (Completed (tasks, owner) _) =>
                  if decide (length tasks = 0) then
                    Some (mkResult (out2 ++ ["No tasks found."]) (Success None))
                  else
                    let out3 :=
                      out2 ++ ["Describing tasks to get task definitions..."] in
                    match describeTasks (client env) owner tasks with
                    | None => Some (mkResult out3 RuntimePanic)
                    | Some d =>
                        let out4 :=
                          out3 ++
                          ["Describing task definitions to get container images..."] in
                        if bool_decide (defOrder σ ≡ₚ elements (taskDefArns d)) then
                          match pool_end
                                  (describeDefsPool (client env) (taskDefToService d)
                                     (defOrder σ) (sched2 σ)) with
                          | None => None
                          | Some Crashed => Some (mkResult out4 RuntimePanic)
                          | Some (Completed images _) =>
                              Some (mkResult
                                      (out4 ++
                                       [""; "Unique container image URIs and services using them:"])
                                      (Success (Some (mkFinal names tasks owner d images))))
                          end
                        else None
                    end
              end
          end
    end.

(** A schedule of a whole run built from the sequential schedules of the
    two pools and the order of [elements]. *)
Definition seq_run (env : Env) : Sched :=
  match listServices (ListServicesPages (client env)) [] with
  | None => mkSched [] [] []
  | Some serviceArns =>
      match deriveNames serviceArns with
      | None => mkSched [] [] []
      | Some (names, _) =>
          let s1 := Pool.seq_sched (listTasks_prog (client env)) names in
          match pool_end (listTasksPool (client env) names s1) with
          | Some (Completed (tasks, owner) _) =>
              match describeTasks (client env) owner tasks with
              | Some d =>
                  let order := elements (taskDefArns d) in
                  mkSched s1 order
                    (Pool.seq_sched
                       (describeDef_prog (client env) (taskDefToService d)) order)
              | None => mkSched s1 [] []
              end
          | _ => mkSched s1 [] []
          end
      end
  end.

(** ** Vocabulary of the properties *)

(** The description of [td] succeeds and declares a container of image
    [img]. *)
Definition declares (c : Client) (td img : string) : Prop :=
  ∃ containers cn,
    DescribeTaskDefinition c td = Some (Some containers) ∧
    cn ∈ containers ∧ Image cn = Some img.

(** In the run that ended in [f], a task owned by [svc] (according to the
    reverse index) was described successfully and runs definition [td]. *)
Definition described_for (c : Client) (f : Final) (td svc : string) : Prop :=
  ∃ b tasks task t,
    b ∈ requests (definitions f) ∧ DescribeTasks c b = Some tasks ∧
    task ∈ tasks ∧ TaskArn task = Some t ∧ TaskDefinitionArn task = Some td ∧
    taskToService f !! t = Some svc.

(** [svc] is listed under some image of the report of [r]. *)
Definition is_owner (r : Result) (svc : string) : Prop :=
  ∃ f img S,
    status r = Success (Some f) ∧ imageToServices f !! img = Some S ∧ svc ∈ S.

(** The invariant of the ownership maps: owners are short names of the
    enumeration [arns], image keys are not empty, and no set lists a
    service twice. *)
Definition ownership_invariant (arns : list string) (f : Final) : Prop :=
  (∀ td S s, taskDefToService (definitions f) !! td = Some S → s ∈ S →
     ∃ arn, arn ∈ arns ∧ Arn.shortName arn = Some s) ∧
  (∀ img S s, imageToServices f !! img = Some S → s ∈ S →
     ∃ arn, arn ∈ arns ∧ Arn.shortName arn = Some s) ∧
  (∀ img, is_Some (imageToServices f !! img) → img ≠ "") ∧
  (∀ td S, taskDefToService (definitions f) !! td = Some S → NoDup (elements S)) ∧
  (∀ img S, imageToServices f !! img = Some S → NoDup (elements S)).

(** The cluster itself, as the data model of the specification has it:
    running tasks, each with one owning service and one task definition,
    and the images that every definition declares.  A service is known
    by its short name, the name under which its tasks are listed. *)
Record Cluster : Type := mkCluster {
  running : list string;
  service_of : string → string;
  definition_of : string → string;
  images_of : string → list string
}.

(** Every call succeeds and tells the state of the cluster. *)
Definition answers (cl : Cluster) (c : Client) : Prop :=
  (∀ s, ∃ ts, ListTasks c s = Some ts ∧
     ∀ t, t ∈ ts ↔ t ∈ running cl ∧ service_of cl t = s) ∧
  (∀ b, ∃ tasks, DescribeTasks c b = Some tasks ∧
     ∀ task, task ∈ tasks ↔
       ∃ t, t ∈ b ∧ task = mkTask (Some t) (Some (definition_of cl t))) ∧
  (∀ td, ∃ containers, DescribeTaskDefinition c td = Some (Some containers) ∧
     ∀ cn, cn ∈ containers ↔
       ∃ img, img ∈ images_of cl td ∧ cn = mkContainer (Some img)).

(** The service has a running task whose definition declares an image. *)
Definition serves (cl : Cluster) (svc : string) : Prop :=
  ∃ t, t ∈ running cl ∧ service_of cl t = svc ∧
       images_of cl (definition_of cl t) ≠ [].

(** The client that answers for a cluster. *)
Definition client_of (cl : Cluster) (pages : list (option (list string)))
  : Client :=
  mkClient pages
    (λ s, Some (filter (λ t, service_of cl t = s) (running cl)))
    (λ b, Some (map (λ t, mkTask (Some t) (Some (definition_of cl t))) b))
    (λ td, Some (Some (map (λ img, mkContainer (Some img)) (images_of cl td)))).

(** ** Vocabulary of further properties *)

(** The text has a separator. *)
Fixpoint has_slash (s : string) : bool :=
  match s with
  | EmptyString => false
  | String a s' => Ascii.eqb a Arn.slash || has_slash s'
  end.

Fixpoint last_char (s : string) : option ascii :=
  match s with
  | EmptyString => None
  | String a EmptyString => Some a
  | String _ s' => last_char s'
  end.

(** The segments written one after the other, each followed by a
    separator. *)
Fixpoint join_terminated (l : list string) : string :=
  match l with
  | [] => EmptyString
  | s :: l' => s +:+ String Arn.slash (join_terminated l')
  end.

(** The entries of the report of a run, when it has one. *)
Definition report_of (r : Result) : option (gmap string (gset string)) :=
  match status r with
  | Success (Some f) => Some (imageToServices f)
  | _ => None
  end.

(** ** Concrete runs *)

Module Demo.

(** The scenario of the specification: two services with one task each,
    both running [def-1], which declares two containers. *)
Definition cl : Cluster :=
  mkCluster ["t1"; "t2"]
    (λ t, if decide (t = "t1") then "svc-a" else "svc-b")
    (λ _, "def-1")
    (λ td, if decide (td = "def-1") then ["repo/app:1"; "repo/sidecar:1"] else []).

Definition env : Env :=
  mkEnv "prod" true
    (client_of cl [Some ["arn:aws:ecs:r:1:service/prod/svc-a"];
                   Some ["arn:aws:ecs:r:1:service/prod/svc-b"]]).

(** A cluster without services, and one whose services run nothing. *)
Definition env_empty : Env :=
  mkEnv "prod" true (mkClient [Some []] (λ _, None) (λ _, None) (λ _, None)).

Definition env_idle : Env :=
  mkEnv "prod" true
    (mkClient [Some ["arn:aws:ecs:r:1:service/prod/svc-a"; "arn:aws:ecs:r:1:service/prod/svc-b"]]
       (λ s, if decide (s = "svc-a") then None else Some [])
       (λ _, None) (λ _, None)).

(** The enumeration holds an empty identifier. *)
Definition env_blank : Env :=
  mkEnv "prod" true
    (mkClient [Some ["arn:aws:ecs:r:1:service/prod/svc-a"; ""]]
       (λ _, Some ["t1"]) (λ _, None) (λ _, None)).

(** The service answers with a task that was not asked for and with a
    container whose image is the empty string. *)
Definition env_odd : Env :=
  mkEnv "prod" true
    (mkClient [Some ["arn:aws:ecs:r:1:service/prod/svc-a"]]
       (λ _, Some ["t1"])
       (λ _, Some [mkTask (Some "t9") (Some "def-1")])
       (λ _, Some (Some [mkContainer (Some "")]))).

(** 201 task identifiers, described without error. *)
Definition many : list string := replicate 201 "t".

Definition quiet : Client :=
  mkClient [] (λ _, None) (λ _, Some []) (λ _, None).

(** A schedule of the first pool in which the two goroutines overlap. *)
Definition overlap : list Pool.Choice :=
  [Pool.MainStep; Pool.MainStep; Pool.WorkerStep 1; Pool.WorkerStep 0;
   Pool.WorkerStep 1; Pool.WorkerStep 0; Pool.WorkerStep 0; Pool.WorkerStep 1;
   Pool.WorkerStep 1; Pool.WorkerStep 0; Pool.WorkerStep 0; Pool.WorkerStep 1;
   Pool.MainStep].

(** Two services with one task each; the tasks run two definitions that
    declare the same image. *)
Definition cl_two : Cluster :=
  mkCluster ["t1"; "t2"]
    (λ t, if decide (t = "t1") then "svc-a" else "svc-b")
    (λ t, if decide (t = "t1") then "def-1" else "def-2")
    (λ _, ["repo/app:1"]).

Definition env_two : Env :=
  mkEnv "prod" true
    (client_of cl_two
       [Some ["arn:aws:ecs:r:1:service/prod/svc-a"; "arn:aws:ecs:r:1:service/prod/svc-b"]]).

(** Two schedules of a run of [env_two] with the same first pool: in
    one the goroutines of the second pool overlap and the definitions
    come in reverse, in the other they run one after the other. *)
Definition overlapped : Sched :=
  mkSched overlap ["def-2"; "def-1"] overlap.

Definition half_overlapped : Sched :=
  mkSched overlap ["def-1"; "def-2"]
    (Pool.seq_sched (describeDef_prog (client env_two) ∅) ["def-1"; "def-2"]).



End Demo.

(** * Theorems *)

Example splitArn_arn :
  Arn.splitArn "arn:aws:ecs:us-east-1:1:service/prod/web" =
  ["arn:aws:ecs:us-east-1:1:service"; "prod"; "web"].
Proof. reflexivity. Qed.

Example splitArn_trailing : Arn.splitArn "a/b/" = ["a"; "b"].
Proof. reflexivity. Qed.

Example splitArn_inner_empty : Arn.splitArn "a//b" = ["a"; ""; "b"].
Proof. reflexivity. Qed.


Section ArnFacts.
Import Arn.

Lemma str_app_cons (c : ascii) (p r : string) :
  String c p +:+ r = String c (p +:+ r).
Proof. reflexivity. Qed.

Lemma str_substring_zero_len (n : nat) (s : string) : String.substring n 0 s = "".
Proof.
  revert n; induction s as [|c s IH]; intros [|n]; simpl; auto.
Qed.

Lemma str_substring_length_in (s : string) (n m : nat) :
  n + m ≤ String.length s → String.length (String.substring n m s) = m.
Proof.
  revert n m; induction s as [|c s IH]; intros [|n] [|m]; simpl; intros H;
    try lia; auto.
  - rewrite IH; lia.
  - rewrite str_substring_zero_len. done.
  - apply IH. lia.
Qed.

Lemma str_substring_app_l (s t : string) (n m : nat) :
  n + m ≤ String.length s →
  String.substring n m (s +:+ t) = String.substring n m s.
Proof.
  revert n m; induction s as [|c s IH]; intros [|n] [|m]; simpl; intros H;
    try lia; auto.
  - destruct t; reflexivity.
  - f_equal. apply IH. lia.
  - apply IH. lia.
  - apply IH. lia.
Qed.

Lemma str_length_snoc (p : string) (a : ascii) :
  String.length (p +:+ String a "") = S (String.length p).
Proof. induction p as [|c p IH]; [done|]. rewrite !str_app_cons; simpl. by f_equal. Qed.

Lemma str_substring_full (s : string) : String.substring 0 (String.length s) s = s.
Proof. induction s as [|c s IH]; simpl; [done|by rewrite IH]. Qed.

Lemma str_substring_snoc (s : string) (a : ascii) (n : nat) :
  n ≤ String.length s →
  String.substring n (S (String.length s) - n) (s +:+ String a "") =
  String.substring n (String.length s - n) s +:+ String a "".
Proof.
  revert n; induction s as [|c s IH]; intros n H.
  - destruct n; simpl in *; [done|lia].
  - destruct n as [|n].
    + rewrite !Nat.sub_0_r, str_substring_full.
      rewrite <- (str_length_snoc (String c s) a). apply str_substring_full.
    + simpl. apply IH. simpl in H. lia.
Qed.

Lemma str_get_app_here (p r : string) (a : ascii) :
  String.get (String.length p) (p +:+ String a r) = Some a.
Proof. induction p as [|c p IH]; simpl; auto. Qed.

Lemma str_app_snoc_assoc (p r : string) (a : ascii) :
  (p +:+ String a "") +:+ r = p +:+ String a r.
Proof. induction p as [|c p IH]; [done|]. rewrite !str_app_cons. by f_equal. Qed.

Lemma str_length_app (p r : string) :
  String.length (p +:+ r) = String.length p + String.length r.
Proof. induction p as [|c p IH]; [done|]. rewrite !str_app_cons; simpl. by f_equal. Qed.

Lemma str_app_empty_r (p : string) : p +:+ "" = p.
Proof. induction p as [|c p IH]; [done|]. rewrite !str_app_cons. by f_equal. Qed.

(** The index loop, started in the middle of the text, computes [scan]. *)
Lemma splitArn_loop_scan (rest pre : string) (start : nat) (out : list string) :
  start ≤ String.length pre →
  let cur := String.substring start (String.length pre - start) pre in
  let arn := pre +:+ rest in
  ∃ start',
    splitArn_loop arn (String.length rest) (String.length pre) start out =
      (out ++ (scan cur rest).1, start') ∧
    start' ≤ String.length arn ∧
    String.substring start' (String.length arn - start') arn = (scan cur rest).2.
Proof.
  revert pre start out; induction rest as [|a r IH]; intros pre start out Hs; simpl.
  - exists start. rewrite app_nil_r, str_app_empty_r. split; [done|]. split; done.
  - rewrite str_get_app_here.
    pose proof (IH (pre +:+ String a "")) as IH'.
    rewrite str_length_snoc in IH'. rewrite str_app_snoc_assoc in IH'.
    destruct (Ascii.eqb a slash) eqn:Ea.
    + destruct (IH' (S (String.length pre)) (out ++ [String.substring start (String.length pre - start) (pre +:+ String a r)]))
        as (s' & E1 & E2 & E3); [lia|].
      rewrite Nat.sub_diag, str_substring_zero_len in E1, E3.
      exists s'. rewrite E1. destruct (scan "" r) as [l f]; simpl in *.
      rewrite <- app_assoc. simpl.
      rewrite str_substring_app_l by lia. done.
    + destruct (IH' start out) as (s' & E1 & E2 & E3); [lia|].
      rewrite str_substring_snoc in E1, E3 by done.
      exists s'. done.
Qed.


(** [splitArn] in terms of [scan]: the finished segments, and the pending
    one when it is not empty. *)
Lemma splitArn_scan (arn : string) :
  splitArn arn =
  (scan "" arn).1 ++ (if decide ((scan "" arn).2 = "") then [] else [(scan "" arn).2]).
Proof.
  unfold splitArn.
  destruct (splitArn_loop_scan arn "" 0 []) as (s' & E1 & E2 & E3); [simpl; lia|].
  change ("" +:+ arn) with arn in E1, E2, E3.
  simpl in E1, E2, E3. rewrite E1.
  destruct (scan "" arn) as [l f]; simpl in *.
  destruct (decide (s' < String.length arn)) as [Hlt|Hge].
  - rewrite E3. destruct (decide (f = "")) as [->|]; [|done].
    apply (f_equal String.length) in E3.
    rewrite str_substring_length_in in E3 by lia. simpl in E3. lia.
  - assert (s' = String.length arn) as -> by lia.
    rewrite Nat.sub_diag, str_substring_zero_len in E3. subst f.
    rewrite decide_True by done. by rewrite app_nil_r.
Qed.

Lemma shortName_scan (arn : string) :
  shortName arn =
  if decide ((scan "" arn).2 = "") then last (scan "" arn).1 else Some (scan "" arn).2.
Proof.
  unfold shortName. rewrite splitArn_scan.
  destruct (decide _); [by rewrite app_nil_r|apply last_snoc].
Qed.

Lemma split_on_nonnil (c : ascii) (s : string) : split_on c s ≠ [].
Proof.
  destruct s as [|a s]; simpl; [done|].
  destruct (Ascii.eqb a c); [done|]. by destruct (split_on c s).
Qed.

(** The specification's split is [scan] with the pending segment kept. *)
Lemma split_on_scan (rest cur : string) :
  (scan cur rest).1 ++ [(scan cur rest).2] =
  match split_on slash rest with
  | x :: xs => (cur +:+ x) :: xs
  | [] => [cur]
  end.
Proof.
  revert cur; induction rest as [|a r IH]; intros cur; simpl.
  - by rewrite str_app_empty_r.
  - destruct (Ascii.eqb a slash) eqn:Ea.
    + specialize (IH ""). destruct (scan "" r) as [l f]; simpl in *.
      rewrite IH, str_app_empty_r. pose proof (split_on_nonnil slash r).
      by destruct (split_on slash r).
    + rewrite IH. destruct (split_on slash r); by rewrite ?str_app_snoc_assoc.
Qed.

Lemma split_on_scan0 (arn : string) :
  split_on slash arn = (scan "" arn).1 ++ [(scan "" arn).2].
Proof.
  rewrite split_on_scan. pose proof (split_on_nonnil slash arn).
  by destruct (split_on slash arn).
Qed.

Lemma last_nonempty_snoc (l : list string) (f : string) :
  last_nonempty (l ++ [f]) = if decide (f = "") then last_nonempty l else Some f.
Proof.
  unfold last_nonempty. rewrite filter_app, filter_cons, filter_nil.
  destruct (decide (f ≠ "")) as [Hf|Hf].
  - rewrite decide_False by done. apply last_snoc.
  - apply dec_stable in Hf. subst f. rewrite decide_True by done.
    by rewrite app_nil_r.
Qed.

Lemma spec_shortName_scan (arn : string) :
  spec_shortName arn =
  if decide ((scan "" arn).2 = "") then last_nonempty (scan "" arn).1
  else Some (scan "" arn).2.
Proof. unfold spec_shortName. by rewrite split_on_scan0, last_nonempty_snoc. Qed.

(** Without a separator in the text, nothing is finished. *)
Lemma scan_nil_inv (rest cur : string) :
  (scan cur rest).1 = [] → (scan cur rest).2 = cur +:+ rest.
Proof.
  revert cur; induction rest as [|a r IH]; intros cur; simpl.
  - by rewrite str_app_empty_r.
  - destruct (Ascii.eqb a slash).
    + by destruct (scan "" r).
    + intros H. rewrite IH by done. apply str_app_snoc_assoc.
Qed.

Lemma str_app_eq_empty (p r : string) : p +:+ r = "" → p = "" ∧ r = "".
Proof. destruct p; [done|]. rewrite str_app_cons. done. Qed.

(** Two empty segments at the end: the text is ["/"] or ends in ["//"]. *)
Lemma scan_last_empty (rest cur : string) :
  (scan cur rest).2 = "" → last (scan cur rest).1 = Some "" →
  (cur = "" ∧ rest = "/") ∨ ∃ p, rest = p +:+ "//".
Proof.
  revert cur; induction rest as [|a r IH]; intros cur; simpl; [done|].
  destruct (Ascii.eqb a slash) eqn:Ea.
  - apply Ascii.eqb_eq in Ea. subst a.
    specialize (IH ""). pose proof (scan_nil_inv r "") as Hnil.
    destruct (scan "" r) as [l f]; simpl in *. intros Hf Hl.
    destruct l as [|x l].
    + simpl in Hl. injection Hl as ->. rewrite Hnil in Hf by done.
      change ("" +:+ r) with r in Hf. subst r. by left.
    + right. rewrite last_cons_cons in Hl.
      destruct (IH Hf Hl) as [[_ ->]|[p ->]]; [by exists ""|by exists (String slash p)].
  - intros Hf Hl. destruct (IH _ Hf Hl) as [[H _]|[p ->]].
    + by apply str_app_eq_empty in H as [_ ?].
    + right. by exists (String a p).
Qed.

Lemma last_nonempty_last (l : list string) (y : string) :
  last l = Some y → y ≠ "" → last_nonempty l = Some y.
Proof.
  intros Hl Hy. destruct l as [|x l _] using rev_ind; [done|].
  rewrite last_snoc in Hl. injection Hl as ->.
  rewrite last_nonempty_snoc. by rewrite decide_False.
Qed.

Lemma scan_slashes (n : nat) (cur : string) :
  scan cur (slashes (S n)) = (cur :: replicate n "", "").
Proof.
  revert cur; induction n as [|n IH]; intros cur; [done|].
  change (slashes (S (S n))) with (String slash (slashes (S n))).
  cbn [scan]. rewrite Ascii.eqb_refl, IH. done.
Qed.

(** A text whose character two places before the end is not a separator
    does not end in ["//"]. *)
Lemma not_double_slash_suffix (arn : string) :
  String.get (String.length arn - 2) arn ≠ Some slash → ∀ p, arn ≠ p +:+ "//".
Proof.
  intros Hget p ->. apply Hget.
  rewrite str_length_app. simpl. replace (String.length p + 2 - 2) with (String.length p) by lia.
  apply str_get_app_here.
Qed.

(** The last element is missing only for the empty identifier. *)
Lemma shortName_None (arn : string) : shortName arn = None ↔ arn = "".
Proof.
  split; [|by intros ->].
  rewrite shortName_scan. pose proof (scan_nil_inv arn "") as Hnil.
  destruct (scan "" arn) as [l f]; simpl in *.
  destruct (decide (f = "")) as [->|]; [|done].
  intros ->%last_None. symmetry. by apply Hnil.
Qed.

End ArnFacts.

(** C5 (counterexample): an identifier that ends in two separators has the
    empty short name, although its last non-empty segment is ["web"]. *)
Lemma shortName_double_slash :
  Arn.shortName "service/prod/web//" = Some "" ∧
  Arn.spec_shortName "service/prod/web//" = Some "web" ∧
  Arn.shortName "service/prod/web//" ≠ Arn.spec_shortName "service/prod/web//".
Proof. repeat split; [reflexivity..|discriminate]. Qed.

(** C5 (amended): for every service identifier that is not empty, is not
    ["/"] and does not end in ["//"], the derived short name is the last
    non-empty segment of the identifier split on ['/']. *)
Theorem shortName_last_nonempty_segment (arn : string) :
  arn ≠ "" → arn ≠ "/" → (∀ p, arn ≠ p +:+ "//") →
  ∃ s, s ≠ "" ∧ Arn.shortName arn = Some s ∧ Arn.spec_shortName arn = Some s.
Proof.
  intros Hne Hsl Hdbl.
  rewrite shortName_scan, spec_shortName_scan.
  pose proof (scan_nil_inv arn "") as Hnil.
  pose proof (scan_last_empty arn "") as Hlast.
  destruct (Arn.scan "" arn) as [l f]; simpl in *.
  destruct (decide (f = "")) as [->|Hf]; [|by exists f].
  destruct (last l) as [y|] eqn:Hl.
  - destruct (decide (y = "")) as [->|Hy].
    + destruct Hlast as [[_ ?]|[p ?]]; [done..| |]; [done|by destruct (Hdbl p)].
    + exists y. by rewrite (last_nonempty_last l y).
  - apply last_None in Hl. subst l. symmetry in Hnil. by destruct Hne; apply Hnil.
Qed.

Lemma shortName_last_nonempty_segment_witness :
  ∃ s, s ≠ "" ∧
    Arn.shortName "arn:aws:ecs:us-east-1:1:service/prod/web" = Some s ∧
    Arn.spec_shortName "arn:aws:ecs:us-east-1:1:service/prod/web" = Some s.
Proof.
  apply shortName_last_nonempty_segment; [discriminate..|].
  apply not_double_slash_suffix. vm_compute. discriminate.
Defined.



Section PoolFacts.
Import Pool.
Context {Item Op Shared : Type}.
Variable prog : Item → list (Instr Op).
Variable apply : Op → Shared → Shared.
Variable items : list Item.
Variable s0 : Shared.

Local Abbreviation run := (run prog apply items).
Local Abbreviation step := (step prog apply items).
Local Abbreviation Inv := (Inv prog apply items s0).

Lemma run_app (cs1 cs2 : list Choice) (st : State Item Op Shared) :
  run (cs1 ++ cs2) st = run cs1 st ≫= run cs2.
Proof.
  revert st; induction cs1 as [|c cs1 IH]; intros st; simpl; [done|].
  destruct (step c st); simpl; [apply IH|done].
Qed.

Lemma run_snoc (cs : list Choice) (c : Choice) (st : State Item Op Shared) :
  run (cs ++ [c]) st = run cs st ≫= step c.
Proof.
  rewrite run_app. destruct (run cs st) as [st'|]; simpl; [|done].
  by destruct (step c st').
Qed.

(** Replacing the phase of one goroutine. *)
Lemma insert_split {A} (l : list A) (k : nat) (a b : A) :
  l !! k = Some a → ∃ l1 l2, l = l1 ++ a :: l2 ∧ <[k:=b]> l = l1 ++ b :: l2.
Proof.
  intros H. exists (take k l), (drop (S k) l). split.
  - by rewrite take_drop_middle.
  - apply insert_take_drop. by eapply lookup_lt_Some.
Qed.

Lemma count_insert (f : Phase Op → bool) (ws : list (Phase Op)) (k : nat)
    (p p' : Phase Op) :
  ws !! k = Some p →
  length (filter (λ q, f q = true) (<[k:=p']> ws)) + (if f p then 1 else 0) =
  length (filter (λ q, f q = true) ws) + (if f p' then 1 else 0).
Proof.
  intros H. destruct (insert_split ws k p p' H) as (l1 & l2 & -> & ->).
  rewrite !filter_app, !filter_cons, !length_app.
  destruct (f p) eqn:Ep, (f p') eqn:Ep'; simpl;
    repeat (case_decide; try congruence); simpl; lia.
Qed.

Lemma concat_zip_insert {A B C} (f : A → B → list C) (ws : list A) (xs : list B)
    (k : nat) (p p' : A) (x : B) :
  ws !! k = Some p → xs !! k = Some x →
  ∃ l1 l2, concat (zip_with f ws xs) = l1 ++ f p x ++ l2 ∧
           concat (zip_with f (<[k:=p']> ws) xs) = l1 ++ f p' x ++ l2.
Proof.
  revert xs k; induction ws as [|w ws IH]; intros [|y xs] [|k] Hw Hx;
    simplify_eq/=.
  - by exists [], (concat (zip_with f ws xs)).
  - destruct (IH xs k Hw Hx) as (l1 & l2 & E1 & E2).
    exists (f w y ++ l1), l2. rewrite E1, E2, <- !app_assoc. done.
Qed.

Lemma concat_zip_snoc {A B C} (f : A → B → list C) (ws : list A) (xs : list B)
    (p : A) (x : B) :
  xs !! length ws = Some x →
  concat (zip_with f (ws ++ [p]) xs) = concat (zip_with f ws xs) ++ f p x.
Proof.
  revert xs; induction ws as [|w ws IH]; intros [|y xs] Hx; simplify_eq/=.
  - destruct xs; simpl; by rewrite app_nil_r.
  - rewrite IH by done. by rewrite app_assoc.
Qed.



Lemma pending_all (ws : list (Phase Op)) :
  Forall (λ p, p = Finished) ws → pending prog items ws = [].
Proof.
  unfold pending. generalize items as xs.
  induction ws as [|w ws IH]; intros [|x xs] Hf; simpl; try done.
  inversion Hf; subst. simpl. by apply IH.
Qed.

Lemma count_all_finished (ws : list (Phase Op)) :
  Forall (λ p, p = Finished) ws →
  length (filter (λ p, bar_added p = true) ws) = length ws ∧
  holders ws = 0.
Proof.
  unfold holders. induction 1 as [|w ws -> _ [IH1 IH2]]; [done|].
  rewrite filter_cons_True by done. rewrite filter_cons_False by done.
  simpl. by rewrite IH1, IH2.
Qed.

Lemma Inv_init : Inv (init s0).
Proof.
  split; simpl; try done; unfold holders, limit; simpl; lia.
Qed.


Lemma holders_snoc (ws : list (Phase Op)) (p : Phase Op) :
  holders (ws ++ [p]) = holders ws + (if holds_slot p then 1 else 0).
Proof.
  unfold holders. rewrite filter_app, length_app.
  destruct (holds_slot p) eqn:E.
  - by rewrite filter_cons_True.
  - rewrite filter_cons_False by congruence. done.
Qed.

Lemma Inv_spawn (st : State Item Op Shared) (x : Item) (cr : bool) :
  Inv st → items !! length (workers st) = Some x →
  holders (workers st) < limit →
  Inv (mkState (Spawning (S (length (workers st)))) (workers st ++ [Calling])
         (shared st) (bar st) (calls st) (trace st) cr).
Proof.
  intros [Hlen Hpc Hsem Hbar Hcalls Hsh Htr Hok] Hx Hfree.
  pose proof (lookup_lt_Some _ _ _ Hx) as Hlt.
  split; simpl.
  - rewrite length_app; simpl. lia.
  - rewrite length_app; simpl. lia.
  - rewrite holders_snoc. simpl. lia.
  - rewrite filter_app, length_app, filter_cons_False by done. simpl. lia.
  - unfold attempted. rewrite (concat_zip_snoc _ _ _ _ x) by done.
    simpl. by rewrite app_nil_r.
  - done.
  - unfold pending. rewrite (concat_zip_snoc _ _ _ _ x) by done.
    rewrite length_app. simpl. rewrite Nat.add_1_r.
    rewrite (take_S_r _ _ x) by done.
    rewrite map_app, concat_app. simpl. rewrite app_nil_r, app_assoc.
    by apply Permutation_app.
  - intros k p y Hk Hy. apply lookup_app_Some in Hk as [Hk|[_ Hk]].
    + by eapply Hok.
    + apply list_lookup_singleton_Some in Hk as [_ <-]. done.
Qed.

(** A goroutine that is not over moves to a phase [p']. *)
Lemma Inv_worker (st : State Item Op Shared) (k : nat) (p p' : Phase Op)
    (x : Item) (sh : Shared) (b : nat) (cl : list Item) (tr : list Op)
    (cr : bool) :
  Inv st → workers st !! k = Some p → items !! k = Some x →
  p ≠ Finished → (holds_slot p' = true → holds_slot p = true) →
  b + (if bar_added p then 1 else 0) = bar st + (if bar_added p' then 1 else 0) →
  cl ++ attempted_one p x ≡ₚ calls st ++ attempted_one p' x →
  sh = foldl (λ s op, apply op s) s0 tr →
  tr ++ pending_one prog p' x ≡ₚ trace st ++ pending_one prog p x →
  worker_ok prog p' x →
  Inv (mkState (pc st) (<[k:=p']> (workers st)) sh b cl tr cr).
Proof.
  intros [Hlen Hpc Hsem Hbar Hcalls Hsh Htr Hok] Hk Hx Hp Hslot Hb Hcl Hs Ht Hw.
  split; simpl; rewrite ?length_insert.
  - done.
  - destruct (pc st); [done|]. destruct Hpc as (_ & Hf & _).
    rewrite Forall_lookup in Hf. by destruct Hp; eapply Hf.
  - pose proof (count_insert holds_slot _ _ _ p' Hk) as Hc. unfold holders in *.
    destruct (holds_slot p') eqn:E', (holds_slot p) eqn:E; lia.
  - pose proof (count_insert bar_added _ _ _ p' Hk) as Hc. lia.
  - unfold attempted in *.
    destruct (concat_zip_insert attempted_one _ _ _ _ p' _ Hk Hx)
      as (l1 & l2 & E1 & E2).
    rewrite E1 in Hcalls. rewrite E2.
    apply (Permutation_app_inv_r (attempted_one p x)).
    rewrite Hcl, Hcalls. solve_Permutation.
  - done.
  - unfold pending in *.
    destruct (concat_zip_insert (pending_one prog) _ _ _ _ p' _ Hk Hx)
      as (l1 & l2 & E1 & E2).
    rewrite E1 in Htr. rewrite E2. rewrite <- Htr.
    apply (Permutation_app_inv_r (pending_one prog p x)).
    transitivity ((tr ++ pending_one prog p' x) ++ l1 ++ l2 ++ pending_one prog p x);
      [solve_Permutation|].
    rewrite Ht. solve_Permutation.
  - intros j q y Hj Hy. destruct (decide (j = k)) as [->|Hne].
    + rewrite list_lookup_insert_eq in Hj by (by eapply lookup_lt_Some).
      by simplify_eq.
    + rewrite list_lookup_insert_ne in Hj by done. by eapply Hok.
Qed.

Lemma Inv_step (c : Choice) (st st' : State Item Op Shared) :
  Inv st → step c st = Some st' → Inv st'.
Proof.
  intros HI Hstep. unfold step in Hstep.
  destruct (crashed st) eqn:Hcr; [done|]. destruct c as [|k].
  - unfold main_step in Hstep. assert (HI' := HI). destruct HI' as [_ Hpc _ _ _ _ _ _].
    destruct (pc st) as [i|] eqn:Hpcst; [|done]. subst i.
    destruct (items !! length (workers st)) as [x|] eqn:Hx.
    + case_decide; [|done]. simplify_eq. by apply (Inv_spawn st x).
    + destruct (forallb is_finished (workers st)) eqn:Hfin; [|done].
      simplify_eq. destruct HI as [Hlen _ Hsem Hbar Hcalls Hsh Htr Hok].
      split; simpl; try done.
      apply lookup_ge_None in Hx. split; [lia|]. split; [|done].
      rewrite forallb_forall in Hfin. apply Forall_forall.
      intros p Hp. apply list_elem_of_In in Hp.
      specialize (Hfin p Hp). by destruct p.
  - unfold worker_step in Hstep.
    destruct (workers st !! k) as [p|] eqn:Hk; [|done].
    assert (is_Some (items !! k)) as [x Hx].
    { apply lookup_lt_is_Some. assert (HI' := HI). destruct HI' as [Hlen _ _ _ _ _ _ _].
      apply lookup_lt_Some in Hk. lia. }
    assert (HI' := HI). destruct HI' as [_ _ _ _ _ Hsh _ Hok].
    pose proof (Hok _ _ _ Hk Hx) as Hw. clear Hok.
    rewrite Hx in Hstep.
    destruct p as [|[|[op|] todo]| | |]; simplify_eq.
    + eapply Inv_worker; eauto; simpl; by rewrite ?app_nil_r.
    + eapply Inv_worker; eauto; simpl; by rewrite ?app_nil_r.
    + eapply Inv_worker; eauto; simpl; rewrite ?app_nil_r; try done.
      * by rewrite foldl_app, <- Hsh.
      * by rewrite <- app_assoc.
    + destruct HI as [Hlen Hpc Hsem Hbar Hcalls _ Htr Hok].
      split; simpl; try done.
      destruct (pc st); [done|]. destruct Hpc as (_ & Hf & _).
      rewrite Forall_lookup in Hf. by specialize (Hf _ _ Hk).
    + unfold set_worker. eapply Inv_worker; eauto; simpl; by rewrite ?app_nil_r.
    + unfold set_worker. eapply Inv_worker; eauto; simpl; by rewrite ?app_nil_r.
Qed.

Lemma Inv_run (cs : list Choice) (st st' : State Item Op Shared) :
  Inv st → run cs st = Some st' → Inv st'.
Proof.
  revert st; induction cs as [|c cs IH]; intros st HI Hrun; simpl in Hrun.
  - by simplify_eq.
  - destruct (step c st) as [st1|] eqn:Hs; [|done].
    eapply IH; [|done]. by eapply Inv_step.
Qed.


Lemma Inv_reach (cs : list Choice) (st : State Item Op Shared) :
  run cs (init s0) = Some st → Inv st.
Proof. apply Inv_run, Inv_init. Qed.


(** When [wg.Wait()] has returned, the shared results are the protected
    writes of all the items, applied one at a time in some order, and no
    goroutine has met a nil pointer. *)
Lemma returned_shared (cs : list Choice) (st : State Item Op Shared) :
  run cs (init s0) = Some st → pc st = Returned →
  trace st ≡ₚ concat (map (λ x, crits (prog x)) items) ∧
  shared st = foldl (λ s op, apply op s) s0 (trace st) ∧
  Forall (λ x, panics (prog x) = false) items.
Proof.
  intros Hrun Hret. destruct (Inv_reach cs st Hrun)
    as [Hlen Hpc Hsem Hbar Hcalls Hsh Htr Hok].
  rewrite Hret in Hpc. destruct Hpc as (Hl & Hf & _).
  rewrite pending_all, app_nil_r, Hl, firstn_all in Htr by done.
  repeat split; try done.
  apply Forall_lookup. intros k x Hx.
  destruct (lookup_lt_is_Some_2 (workers st) k) as [p Hp].
  { apply lookup_lt_Some in Hx. lia. }
  specialize (Hok _ _ _ Hp Hx). rewrite Forall_lookup in Hf.
  by rewrite (Hf _ _ Hp) in Hok.
Qed.

(** A crash is the nil dereference of some item's program. *)
Lemma crashed_panics_from (cs : list Choice) (st0 st : State Item Op Shared) :
  Inv st0 → crashed st0 = false →
  run cs st0 = Some st → crashed st = true →
  ∃ x, x ∈ items ∧ panics (prog x) = true.
Proof.
  revert st0; induction cs as [|c cs IH]; intros st0 HI Hcr Hrun Hst;
    simpl in Hrun.
  - simplify_eq. congruence.
  - destruct (step c st0) as [st1|] eqn:Hs; [|done].
    destruct (crashed st1) eqn:Hcr1.
    + unfold step in Hs. rewrite Hcr in Hs. destruct c as [|k].
      * unfold main_step in Hs.
        repeat (case_match; simplify_eq/=; try congruence).
      * unfold worker_step in Hs.
        destruct (workers st0 !! k) as [p|] eqn:Hk; [|done].
        destruct HI as [Hlen _ _ _ _ _ _ Hok].
        destruct (lookup_lt_is_Some_2 items k) as [x Hx].
        { apply lookup_lt_Some in Hk. lia. }
        specialize (Hok _ _ _ Hk Hx). rewrite Hx in Hs.
        destruct p as [|[|[op|] todo]| | |]; simplify_eq/=; try congruence.
        exists x. split; [by eapply list_elem_of_lookup_2|done].
    + eapply IH; [by eapply Inv_step|done..].
Qed.

Lemma crashed_panics (cs : list Choice) (st : State Item Op Shared) :
  run cs (init s0) = Some st → crashed st = true →
  ∃ x, x ∈ items ∧ panics (prog x) = true.
Proof. apply crashed_panics_from; [apply Inv_init|done]. Qed.

(** The goroutine of index [k], run alone to its end. *)
Lemma run_steps_of (k : nat) (todo : list (Instr Op)) (st : State Item Op Shared) :
  workers st !! k = Some (Working todo) → crashed st = false →
  ∃ st', run (steps_of k todo) st = Some st' ∧ pc st' = pc st ∧
    if panics todo then crashed st' = true
    else crashed st' = false ∧ workers st' = <[k:=Finished]> (workers st).
Proof.
  revert st; induction todo as [|[op|] todo IH]; intros st Hk Hcr.
  - pose proof (lookup_lt_Some _ _ _ Hk) as Hlt.
    simpl. unfold step, worker_step. rewrite Hcr, Hk. simpl.
    rewrite list_lookup_insert_eq by done. unfold set_worker; simpl.
    rewrite ?Hcr. rewrite list_lookup_insert_eq by (by rewrite length_insert).
    simpl. rewrite ?Hcr. eexists. split; [done|]. simpl.
    by rewrite !list_insert_insert_eq.
  - pose proof (lookup_lt_Some _ _ _ Hk) as Hlt.
    cbn [steps_of run]. unfold step at 1, worker_step. rewrite Hcr, Hk.
    edestruct IH as (st' & Hrun & Hpc & Hend); [..|exists st'; split; [exact Hrun|]].
    + simpl. by apply list_lookup_insert_eq.
    + done.
    + split; [done|]. cbn [panics]. destruct (panics todo); [done|].
      destruct Hend as [? ->]. simpl. by rewrite list_insert_insert_eq.
  - simpl. unfold step, worker_step. rewrite Hcr, Hk. eexists. by split.
Qed.

(** The sequential schedule runs the pool to the return of [wg.Wait()],
    or to the crash of a goroutine. *)
Lemma run_seq_from (xs : list Item) (st : State Item Op Shared) :
  pc st = Spawning (length (workers st)) →
  Forall (λ p, p = Finished) (workers st) → crashed st = false →
  drop (length (workers st)) items = xs →
  ∃ st', run (seq_from prog (length (workers st)) xs) st = Some st' ∧
    if forallb (λ x, negb (panics (prog x))) xs
    then pc st' = Returned ∧ crashed st' = false
    else crashed st' = true.
Proof.
  revert st; induction xs as [|x xs IH]; intros st Hpc Hfin Hcr Hdrop.
  - simpl. unfold step, main_step. rewrite Hcr, Hpc.
    assert (items !! length (workers st) = None) as ->.
    { apply lookup_ge_None. by apply drop_nil_inv in Hdrop. }
    assert (forallb is_finished (workers st) = true) as ->.
    { apply forallb_forall. intros p Hp%list_elem_of_In.
      rewrite Forall_forall in Hfin. by rewrite (Hfin p Hp). }
    eexists. by split.
  - assert (items !! length (workers st) = Some x) as Hx.
    { rewrite <- (Nat.add_0_r (length _)), <- lookup_drop, Hdrop. done. }
    assert (holders (workers st) < limit) as Hfree.
    { destruct (count_all_finished _ Hfin) as [_ ->]. unfold limit. lia. }
    set (st1 := mkState (Spawning (S (length (workers st))))
                  (<[length (workers st):=Working (prog x)]> (workers st ++ [Calling]))
                  (shared st) (bar st) (calls st ++ [x]) (trace st) false).
    assert (run [MainStep; WorkerStep (length (workers st))] st = Some st1) as Hrun1.
    { simpl. unfold step at 1, main_step. rewrite Hcr, Hpc, Hx.
      rewrite decide_True by done. unfold step, worker_step. simpl.
      rewrite lookup_app_r by done. rewrite Nat.sub_diag. simpl. by rewrite Hx. }
    destruct (run_steps_of (length (workers st)) (prog x) st1)
      as (st2 & Hrun2 & Hpc2 & Hend); [| done |].
    { simpl. apply list_lookup_insert_eq. rewrite length_app. simpl. lia. }
    cbn [seq_from forallb].
    destruct (panics (prog x)) eqn:Hpx; cbn [negb andb].
    + exists st2. split; [|done].
      change (MainStep :: WorkerStep (length (workers st)) :: steps_of (length (workers st)) (prog x))
        with ([MainStep; WorkerStep (length (workers st))] ++ steps_of (length (workers st)) (prog x)).
      rewrite run_app, Hrun1. done.
    + destruct Hend as [Hcr2 Hws2]. simpl in Hws2.
      rewrite list_insert_insert_eq in Hws2.
      rewrite insert_app_r_alt, Nat.sub_diag in Hws2 by done. simpl in Hws2.
      destruct (IH st2) as (st3 & Hrun3 & Hend3).
      * rewrite Hpc2, Hws2, length_app. simpl. by rewrite Nat.add_1_r.
      * rewrite Hws2. apply Forall_app. split; [done|]. by constructor.
      * done.
      * rewrite Hws2, length_app. simpl.
        rewrite <- drop_drop, Hdrop. done.
      * exists st3. split; [|done].
        change (MainStep :: WorkerStep (length (workers st)) ::
                steps_of (length (workers st)) (prog x) ++ seq_from prog (S (length (workers st))) xs)
          with ([MainStep; WorkerStep (length (workers st))] ++
                steps_of (length (workers st)) (prog x) ++ seq_from prog (S (length (workers st))) xs).
        rewrite run_app, Hrun1. cbn [mbind option_bind].
        rewrite run_app, Hrun2. cbn [mbind option_bind].
        rewrite Hws2, length_app in Hrun3. simpl in Hrun3.
        by rewrite Nat.add_1_r in Hrun3.
Qed.

Lemma run_seq_sched :
  ∃ st, run (seq_sched prog items) (init s0) = Some st ∧
    if forallb (λ x, negb (panics (prog x))) items
    then pc st = Returned ∧ crashed st = false
    else crashed st = true.
Proof. by apply (run_seq_from items (init s0)). Qed.


(** *** The pool always comes to its end *)








End PoolFacts.


Section BatchFacts.
Variable c : Client.
Variable owner : gmap string string.
Variable taskArns : list string.

(** The requests issued from index [i] on partition the rest of the list
    into full batches and a last, shorter one. *)
Lemma describe_loop_requests (n i : nat) (st d : DescState) :
  length taskArns - i ≤ n * batchSize →
  describe_loop c owner taskArns n i st = Some d →
  ∃ bs, requests d = requests st ++ bs ∧
    concat bs = drop i taskArns ∧
    length taskArns - i ≤ batchSize * length bs ∧
    batchSize * length bs < length taskArns - i + batchSize ∧
    ∀ k b, bs !! k = Some b →
      0 < length b ≤ batchSize ∧ (S k < length bs → length b = batchSize).
Proof.
  unfold batchSize.
  revert i st; induction n as [|n IH]; intros i st Hn Hloop; simpl in Hloop.
  - simplify_eq. exists []. rewrite app_nil_r, drop_ge by lia.
    simpl. split_and!; try done; try lia.
  - case_decide as Hi.
    + set (end_ := if decide (length taskArns < i + batchSize)
                   then length taskArns else i + batchSize) in Hloop.
      set (batch := take (end_ - i) (drop i taskArns)) in Hloop.
      assert (length batch = (length taskArns - i) `min` 100) as Hlen.
      { unfold batch, end_, batchSize. rewrite length_take, length_drop.
        case_decide; lia. }
      assert (batch ++ drop (i + 100) taskArns = drop i taskArns) as Hcat.
      { unfold batch, end_, batchSize.
        replace (drop (i + 100) taskArns) with (drop 100 (drop i taskArns))
          by apply drop_drop.
        case_decide.
        - rewrite (drop_ge (drop i taskArns)) by (rewrite length_drop; lia).
          rewrite app_nil_r. apply take_ge. rewrite length_drop. lia.
        - replace (i + 100 - i) with 100 by lia. apply take_drop. }
      assert (∃ st1, requests st1 = requests st ++ [batch] ∧
                     describe_loop c owner taskArns n (i + batchSize) st1 = Some d)
        as (st1 & Hreq & Hrec).
      { destruct (DescribeTasks c batch) as [tasks|].
        - destruct (record_tasks owner tasks (taskDefArns st, taskDefToService st))
            as [[defs owners]|]; [|done].
          eexists; split; [|exact Hloop]. done.
        - eexists; split; [|exact Hloop]. done. }
      unfold batchSize in Hrec.
      destruct (IH (i + 100) st1) as (bs & E & Hc & Hlo & Hhi & Hall);
        [lia|done|].
      exists (batch :: bs). rewrite E, Hreq, <- app_assoc. split; [done|].
      split; [simpl; by rewrite Hc|]. simpl. split_and!; try lia.

      intros [|k] b Hk; simplify_eq/=; [lia|].
      destruct (Hall k b Hk) as [? Hfull]. split; [done|].
      intros ?. apply Hfull. lia.
    + simplify_eq. exists []. rewrite app_nil_r, drop_ge by lia.
      simpl. split_and!; try done; try lia.
Qed.

End BatchFacts.

(** The requests of the whole stage. *)
Lemma describeTasks_requests (c : Client) (owner : gmap string string)
    (taskArns : list string) (d : DescState) :
  describeTasks c owner taskArns = Some d →
  length taskArns ≤ 100 * length (requests d) < length taskArns + 100 ∧
  (∀ k b, requests d !! k = Some b →
     0 < length b ≤ 100 ∧ (S k < length (requests d) → length b = 100)) ∧
  concat (requests d) = taskArns.
Proof.
  intros Hd. unfold describeTasks in Hd.
  apply describe_loop_requests in Hd as (bs & E & Hc & Hlo & Hhi & Hall);
    [|unfold batchSize; lia].
  simpl in E. subst bs. unfold batchSize in *.
  rewrite Nat.sub_0_r in Hlo, Hhi. rewrite drop_0 in Hc.
  split_and!; try done; lia.
Qed.

(** C3: for every task-identifier list of length [L], the description
    stage issues exactly [ceil(L/100)] requests, which is the
    [(L+99)/100] of the progress bar; every batch holds at most 100
    identifiers and only the last may hold fewer; the batches
    concatenated are the list itself, so that every identifier is sent
    exactly once, in order. *)
Theorem describeTasks_batches (c : Client) (owner : gmap string string)
    (taskArns : list string) (d : DescState) :
  describeTasks c owner taskArns = Some d →
  length (requests d) = (length taskArns + 99) / 100 ∧
  length taskArns ≤ 100 * length (requests d) < length taskArns + 100 ∧
  (∀ k b, requests d !! k = Some b →
     0 < length b ≤ 100 ∧ (S k < length (requests d) → length b = 100)) ∧
  concat (requests d) = taskArns.
Proof.
  intros (Hbounds & Hall & Hcat)%describeTasks_requests.
  split_and!; try done; try lia.
  apply (Nat.div_unique _ _ _ (length taskArns + 99 - 100 * length (requests d))); lia.
Qed.

Lemma describeTasks_batches_witness :
  ∃ d, describeTasks Demo.quiet ∅ Demo.many = Some d ∧
    length (requests d) = (length Demo.many + 99) / 100 ∧
    length Demo.many ≤ 100 * length (requests d) < length Demo.many + 100 ∧
    (∀ k b, requests d !! k = Some b →
       0 < length b ≤ 100 ∧ (S k < length (requests d) → length b = 100)) ∧
    concat (requests d) = Demo.many.
Proof.
  eexists. split; [vm_compute; reflexivity|].
  eapply (describeTasks_batches Demo.quiet ∅ Demo.many).
  vm_compute; reflexivity.
Defined.

Example describeTasks_three_batches :
  (requests <$> describeTasks Demo.quiet ∅ Demo.many) =
  Some [replicate 100 "t"; replicate 100 "t"; ["t"]].
Proof. vm_compute. reflexivity. Qed.


Lemma elem_of_concat {A} (x : A) (ls : list (list A)) :
  x ∈ concat ls ↔ ∃ l, l ∈ ls ∧ x ∈ l.
Proof.
  rewrite list_elem_of_In, in_concat. split.
  - intros (l & ?%list_elem_of_In & ?%list_elem_of_In). eauto.
  - intros (l & ?%list_elem_of_In & ?%list_elem_of_In). eauto.
Qed.

Lemma elem_of_map {A B} (f : A → B) (l : list A) (y : B) :
  y ∈ map f l ↔ ∃ x, y = f x ∧ x ∈ l.
Proof.
  rewrite list_elem_of_In, in_map_iff. split.
  - intros (x & ? & ?%list_elem_of_In). eauto.
  - intros (x & ? & ?%list_elem_of_In). eauto.
Qed.

(** ** Stage 2: what the writes of the first pool add up to *)

Section ListTasksFacts.
Variable c : Client.

Lemma foldl_insert_lookup (svc : string) (ts : list string)
    (m : gmap string string) (t : string) :
  foldl (λ m t, <[t:=svc]> m) m ts !! t =
  if decide (t ∈ ts) then Some svc else m !! t.
Proof.
  revert m; induction ts as [|t' ts IH]; intros m; cbn [foldl].
  - destruct (decide (t ∈ [])) as [H%elem_of_nil|]; done.
  - rewrite IH. destruct (decide (t ∈ ts)) as [Hin|Hnin].
    + destruct (decide (t ∈ t' :: ts)) as [|Hn]; [done|].
      destruct Hn. by right.
    + destruct (decide (t = t')) as [->|Hne].
      * rewrite lookup_insert_eq.
        destruct (decide (t' ∈ t' :: ts)) as [|Hn]; [done|]. destruct Hn. by left.
      * rewrite lookup_insert_ne by done.
        destruct (decide (t ∈ t' :: ts)) as [[?|?]%elem_of_cons|]; done.
Qed.

Lemma addTasks_fold_tasks (tr : list ListOp) (s : list string * gmap string string) :
  (foldl (λ s op, addTasks op s) s tr).1 = s.1 ++ concat (map op_tasks tr).
Proof.
  revert s; induction tr as [|[svc ts] tr IH]; intros s; simpl.
  - by rewrite app_nil_r.
  - rewrite IH. simpl. by rewrite app_assoc.
Qed.

Lemma addTasks_fold_owner (tr : list ListOp) (s : list string * gmap string string)
    (t o : string) :
  (foldl (λ s op, addTasks op s) s tr).2 !! t = Some o →
  s.2 !! t = Some o ∨ ∃ ts, AddTasks o ts ∈ tr ∧ t ∈ ts.
Proof.
  revert s; induction tr as [|[svc ts] tr IH]; intros s; simpl; [by left|].
  intros [H|(ts' & Hin & Ht)]%IH.
  - simpl in H. rewrite foldl_insert_lookup in H. case_decide.
    + simplify_eq. right. exists ts. split; [by left|done].
    + by left.
  - right. exists ts'. split; [by right|done].
Qed.

Lemma addTasks_fold_dom (tr : list ListOp) (s : list string * gmap string string)
    (t : string) :
  is_Some ((foldl (λ s op, addTasks op s) s tr).2 !! t) ↔
  is_Some (s.2 !! t) ∨ t ∈ concat (map op_tasks tr).
Proof.
  revert s; induction tr as [|[svc ts] tr IH]; intros s; simpl.
  - split; [by left|]. intros [?|?%elem_of_nil]; done.
  - rewrite IH. simpl. rewrite foldl_insert_lookup, elem_of_app.
    case_decide; [split; [intros _; right; by left|intros _; by left]|].
    split; [intros [?|?]; auto|intros [?|[?|?]]; auto; done].
Qed.

(** The owner of a task that only one service lists is that service. *)
Lemma addTasks_fold_unique (tr : list ListOp) (s : list string * gmap string string)
    (t o : string) (ts : list string) :
  (∀ o' ts', AddTasks o' ts' ∈ tr → t ∈ ts' → o' = o) →
  AddTasks o ts ∈ tr → t ∈ ts →
  (foldl (λ s op, addTasks op s) s tr).2 !! t = Some o.
Proof.
  intros Huniq Hin Ht.
  assert (is_Some ((foldl (λ s op, addTasks op s) s tr).2 !! t)) as [o' Ho'].
  { apply addTasks_fold_dom. right. apply elem_of_concat.
    exists ts. split; [|done]. apply elem_of_map. by exists (AddTasks o ts). }
  revert s Huniq Hin Ho'. induction tr as [|[svc ts1] tr IH]; intros s Huniq Hin Ho'.
  - by apply elem_of_nil in Hin.
  - simpl in *. apply addTasks_fold_owner in Ho' as Hcase.
    destruct Hcase as [Hs|(ts' & Hin' & Ht')].
    + simpl in Hs. rewrite foldl_insert_lookup in Hs. case_decide.
      * simplify_eq. rewrite Ho'. f_equal. apply (Huniq o' ts1); [by left|done].
      * apply elem_of_cons in Hin as [Heq|Hin]; [by simplify_eq|].
        apply IH; [|done..]. intros o1 ts2 Hin1 Ht1.
        apply (Huniq o1 ts2); [by right|done].
    + rewrite Ho'. f_equal. apply (Huniq o' ts'); [by right|done].
Qed.

Lemma listTasks_crits (names : list string) (op : ListOp) :
  op ∈ concat (map (λ x, Pool.crits (listTasks_prog c x)) names) ↔
  ∃ s ts, s ∈ names ∧ ListTasks c s = Some ts ∧ op = AddTasks s ts.
Proof.
  rewrite elem_of_concat. split.
  - intros (l & (s & -> & Hs)%elem_of_map & Hop).
    unfold listTasks_prog in Hop. destruct (ListTasks c s) as [ts|] eqn:E.
    + simpl in Hop. apply list_elem_of_singleton in Hop. by exists s, ts.
    + by apply elem_of_nil in Hop.
  - intros (s & ts & Hs & E & ->). exists [AddTasks s ts]. split; [|by left].
    apply elem_of_map. exists s. split; [|done].
    unfold listTasks_prog. by rewrite E.
Qed.

Lemma listTasks_crits_tasks (names : list string) :
  concat (map op_tasks (concat (map (λ x, Pool.crits (listTasks_prog c x)) names))) =
  concat (omap (ListTasks c) names).
Proof.
  induction names as [|s names IH]; [done|]. simpl.
  rewrite map_app, concat_app, IH. unfold listTasks_prog.
  destruct (ListTasks c s); simpl; [by rewrite app_nil_r|done].
Qed.

Lemma listTasks_no_panic (names : list string) :
  forallb (λ x, negb (Pool.panics (listTasks_prog c x))) names = true.
Proof.
  apply forallb_forall. intros s _. unfold listTasks_prog.
  by destruct (ListTasks c s).
Qed.

(** The results of the first pool once [wg.Wait()] has returned. *)
Lemma listTasksPool_returned (names : list string) (cs : list Pool.Choice)
    (st : Pool.State string ListOp (list string * gmap string string)) :
  listTasksPool c names cs = Some st → Pool.pc st = Pool.Returned →
  (Pool.shared st).1 ≡ₚ concat (omap (ListTasks c) names) ∧
  (∀ t, t ∈ (Pool.shared st).1 ↔ is_Some ((Pool.shared st).2 !! t)) ∧
  (∀ t o, (Pool.shared st).2 !! t = Some o →
     o ∈ names ∧ ∃ ts, ListTasks c o = Some ts ∧ t ∈ ts) ∧
  (∀ s ts t, s ∈ names → ListTasks c s = Some ts → t ∈ ts →
     t ∈ (Pool.shared st).1 ∧
     ((∀ s' ts', s' ∈ names → ListTasks c s' = Some ts' → t ∈ ts' → s' = s) →
      (Pool.shared st).2 !! t = Some s)).
Proof.
  intros Hrun Hret. unfold listTasksPool in Hrun.
  destruct (returned_shared _ _ _ _ _ _ Hrun Hret) as (Htr & Hsh & _).
  rewrite Hsh. clear Hsh.
  assert (∀ op, op ∈ Pool.trace st ↔
            ∃ s ts, s ∈ names ∧ ListTasks c s = Some ts ∧ op = AddTasks s ts) as Hop.
  { intros op. rewrite Htr. apply listTasks_crits. }
  assert ((foldl (λ s op, addTasks op s) ([], ∅) (Pool.trace st)).1 ≡ₚ
          concat (omap (ListTasks c) names)) as Htasks.
  { rewrite addTasks_fold_tasks. simpl. rewrite <- listTasks_crits_tasks.
    by rewrite Htr. }
  split_and!.
  - done.
  - intros t. rewrite addTasks_fold_dom, addTasks_fold_tasks. simpl.
    rewrite lookup_empty. split; [by right|]. by intros [[? ?]|?].
  - intros t o [H|(ts & Hin & Ht)]%addTasks_fold_owner; [done|].
    apply Hop in Hin as (s & ts' & Hs & E & Heq). simplify_eq. eauto.
  - intros s ts t Hs E Ht.
    assert (AddTasks s ts ∈ Pool.trace st) as Hin by (apply Hop; eauto).
    split.
    + rewrite addTasks_fold_tasks. simpl. apply elem_of_concat.
      exists ts. split; [|done]. apply elem_of_map. by exists (AddTasks s ts).
    + intros Huniq. apply (addTasks_fold_unique _ _ _ _ ts); [|done..].
      intros o' ts' (s' & ts'' & Hs' & E' & Heq)%Hop Ht'. simplify_eq.
      by apply (Huniq s' ts'').
Qed.

End ListTasksFacts.


(** ** Stage 3: what the recorded tasks add up to *)

Section DescribeFacts.
Variable c : Client.
Variable t2s : gmap string string.

Local Abbreviation svc t := (default "" (t2s !! t)).
Local Abbreviation recs_fold st recs := (record_all t2s recs st).

Lemma record_task_lookup (t td td' : string)
    (st : gset string * gmap string (gset string)) :
  (record_task t2s t td st).2 !! td' =
  if decide (td = td') then Some ({[svc t]} ∪ default ∅ (st.2 !! td))
  else st.2 !! td'.
Proof.
  unfold record_task; simpl. destruct (decide (td = td')) as [<-|Hne].
  - rewrite lookup_alter_eq. destruct (st.2 !! td) as [S|] eqn:E.
    + by rewrite E.
    + by rewrite lookup_insert_eq.
  - rewrite lookup_alter_ne by done. destruct (st.2 !! td); [done|].
    by rewrite lookup_insert_ne.
Qed.

Lemma recs_fold_defs (recs : list (string * string))
    (st : gset string * gmap string (gset string)) (td : string) :
  td ∈ (recs_fold st recs).1 ↔ td ∈ st.1 ∨ ∃ t, (t, td) ∈ recs.
Proof.
  revert st; induction recs as [|[t1 td1] recs IH]; intros st; simpl.
  - split; [by left|]. intros [?|[t ?%elem_of_nil]]; done.
  - rewrite IH. simpl. rewrite elem_of_union, elem_of_singleton. split.
    + intros [[->|?]|[t ?]]; eauto.
      * right. exists t1. by left.
      * right. exists t. by right.
    + intros [?|[t [?|?]%elem_of_cons]]; simplify_eq; eauto.
Qed.

Lemma recs_fold_sound (recs : list (string * string))
    (st : gset string * gmap string (gset string)) (td : string)
    (S : gset string) (s : string) :
  (recs_fold st recs).2 !! td = Some S → s ∈ S →
  (∃ S0, st.2 !! td = Some S0 ∧ s ∈ S0) ∨ ∃ t, (t, td) ∈ recs ∧ s = svc t.
Proof.
  revert st; induction recs as [|[t1 td1] recs IH]; intros st HS Hs; simpl in *.
  - left. eauto.
  - destruct (IH _ HS Hs) as [(S0 & E & Hs0)|(t & Hin & ->)].
    + rewrite record_task_lookup in E. case_decide.
      * simplify_eq. apply elem_of_union in Hs0 as [->%elem_of_singleton|Hs0].
        -- right. exists t1. split; [by left|done].
        -- left. destruct (st.2 !! td) as [S0|]; [eauto|]. by apply elem_of_empty in Hs0.
      * left. eauto.
    + right. exists t. split; [by right|done].
Qed.

Lemma recs_fold_mono (recs : list (string * string))
    (st : gset string * gmap string (gset string)) (td : string) (S0 : gset string) :
  st.2 !! td = Some S0 → ∃ S, (recs_fold st recs).2 !! td = Some S ∧ S0 ⊆ S.
Proof.
  revert st S0; induction recs as [|[t1 td1] recs IH]; intros st S0 E; simpl.
  - eauto.
  - destruct (decide (td1 = td)) as [->|Hne].
    + destruct (IH (record_task t2s t1 td st) ({[svc t1]} ∪ S0))
        as (S & ES & Hsub).
      { rewrite record_task_lookup, decide_True by done. by rewrite E. }
      exists S. split; [done|]. set_solver.
    + apply IH. rewrite record_task_lookup, decide_False by done. done.
Qed.

Lemma recs_fold_complete (recs : list (string * string))
    (st : gset string * gmap string (gset string)) (t td : string) :
  (t, td) ∈ recs → ∃ S, (recs_fold st recs).2 !! td = Some S ∧ svc t ∈ S.
Proof.
  revert st; induction recs as [|[t1 td1] recs IH]; intros st Hin; simpl.
  - by apply elem_of_nil in Hin.
  - apply elem_of_cons in Hin as [Heq|Hin]; [|by apply IH].
    injection Heq as -> ->.
    destruct (recs_fold_mono recs (record_task t2s t1 td1 st) td1
                ({[svc t1]} ∪ default ∅ (st.2 !! td1))) as (S & ES & Hsub).
    { by rewrite record_task_lookup, decide_True. }
    exists S. split; [done|]. set_solver.
Qed.

Lemma recs_fold_dom (recs : list (string * string))
    (st : gset string * gmap string (gset string)) (td : string) :
  is_Some ((recs_fold st recs).2 !! td) →
  is_Some (st.2 !! td) ∨ ∃ t, (t, td) ∈ recs.
Proof.
  revert st; induction recs as [|[t1 td1] recs IH]; intros st; simpl; [by left|].
  intros [H|[t Hin]]%IH.
  - rewrite record_task_lookup in H. case_decide.
    + simplify_eq. right. exists t1. by left.
    + by left.
  - right. exists t. by right.
Qed.

(** The loop over one response is the fold over its tasks, and it runs
    to its end exactly when no pointer is nil. *)
Lemma record_tasks_fold (tasks : list Task)
    (st r : gset string * gmap string (gset string)) :
  record_tasks t2s tasks st = Some r →
  r = recs_fold st (omap task_ids tasks) ∧
  ∀ task, task ∈ tasks → is_Some (task_ids task).
Proof.
  revert st; induction tasks as [|task tasks IH]; intros st H; simpl in H.
  - simplify_eq. split; [done|]. by intros task ?%elem_of_nil.
  - destruct (TaskDefinitionArn task) as [td|] eqn:Etd; [|done].
    destruct (TaskArn task) as [t|] eqn:Et; [|done].
    destruct (IH _ H) as [-> Hall].
    assert (task_ids task = Some (t, td)) as Eids.
    { unfold task_ids. by rewrite Et, Etd. }
    cbn [omap list_omap]. rewrite Eids. split; [done|].
    intros task' [->|?]%elem_of_cons; [|by apply Hall].
    by rewrite Eids.
Qed.

Lemma record_tasks_total (tasks : list Task)
    (st : gset string * gmap string (gset string)) :
  (∀ task, task ∈ tasks → is_Some (task_ids task)) →
  is_Some (record_tasks t2s tasks st).
Proof.
  revert st; induction tasks as [|task tasks IH]; intros st Hall; simpl; [done|].
  destruct (Hall task) as [[t td] E]; [by left|]. unfold task_ids in E.
  destruct (TaskArn task), (TaskDefinitionArn task); simplify_eq.
  apply IH. intros task' ?. apply Hall. by right.
Qed.

Lemma describe_loop_fold (taskArns : list string) (n i : nat) (st d : DescState) :
  describe_loop c t2s taskArns n i st = Some d →
  ∃ bs, requests d = requests st ++ bs ∧
    (taskDefArns d, taskDefToService d) =
      recs_fold (taskDefArns st, taskDefToService st) (recorded_of c bs) ∧
    ∀ b tasks task, b ∈ bs → DescribeTasks c b = Some tasks → task ∈ tasks →
      is_Some (task_ids task).
Proof.
  revert i st; induction n as [|n IH]; intros i st Hloop; simpl in Hloop.
  - simplify_eq. exists []. rewrite app_nil_r. split_and!; try done.
    by intros b tasks task ?%elem_of_nil.
  - case_decide; cycle 1.
    { simplify_eq. exists []. rewrite app_nil_r. split_and!; try done.
      by intros b tasks task ?%elem_of_nil. }
    set (batch := take _ _) in Hloop.
    destruct (DescribeTasks c batch) as [tasks|] eqn:Eb.
    + destruct (record_tasks t2s tasks (taskDefArns st, taskDefToService st))
        as [[defs owners]|] eqn:Er; [|done].
      apply record_tasks_fold in Er as [Er Hall].
      destruct (IH _ _ Hloop) as (bs & E & Hfold & Hok). simpl in *.
      exists (batch :: bs). rewrite E, <- app_assoc. split; [done|]. split.
      * rewrite Hfold. unfold recorded_of, record_all in *. simpl.
        rewrite Eb, foldl_app. by rewrite <- Er.
      * intros b tasks' task [->|Hb]%elem_of_cons Hd Ht.
        -- rewrite Eb in Hd. simplify_eq. by apply Hall.
        -- by eapply Hok.
    + destruct (IH _ _ Hloop) as (bs & E & Hfold & Hok). simpl in *.
      exists (batch :: bs). rewrite E, <- app_assoc. split; [done|]. split.
      * rewrite Hfold. unfold recorded_of. simpl. by rewrite Eb.
      * intros b tasks' task [->|Hb]%elem_of_cons Hd Ht.
        -- by rewrite Eb in Hd.
        -- by eapply Hok.
Qed.

Lemma elem_of_recorded_of (bs : list (list string)) (t td : string) :
  (t, td) ∈ recorded_of c bs ↔
  ∃ b tasks task, b ∈ bs ∧ DescribeTasks c b = Some tasks ∧ task ∈ tasks ∧
    TaskArn task = Some t ∧ TaskDefinitionArn task = Some td.
Proof.
  unfold recorded_of. rewrite elem_of_concat. split.
  - intros (l & (b & -> & Hb)%elem_of_map & Hin).
    destruct (DescribeTasks c b) as [tasks|] eqn:Eb; [|by apply elem_of_nil in Hin].
    apply list_elem_of_omap in Hin as (task & Htask & Hids).
    exists b, tasks, task. unfold task_ids in Hids.
    destruct (TaskArn task), (TaskDefinitionArn task); by simplify_eq.
  - intros (b & tasks & task & Hb & Eb & Htask & Et & Etd).
    exists (omap task_ids tasks). split.
    + apply elem_of_map. exists b. by rewrite Eb.
    + apply list_elem_of_omap. exists task. split; [done|].
      unfold task_ids. by rewrite Et, Etd.
Qed.

End DescribeFacts.


Section DescribeResult.
Variable c : Client.
Variable t2s : gmap string string.

(** The outcome of the description stage: the definitions and their
    owners come from the tasks of the successful responses, and from
    all of them. *)
Lemma describeTasks_result (taskArns : list string) (d : DescState) :
  describeTasks c t2s taskArns = Some d →
  concat (requests d) = taskArns ∧
  (∀ td S s, taskDefToService d !! td = Some S → s ∈ S →
     ∃ b tasks task t, b ∈ requests d ∧ DescribeTasks c b = Some tasks ∧
       task ∈ tasks ∧ TaskArn task = Some t ∧ TaskDefinitionArn task = Some td ∧
       s = default "" (t2s !! t)) ∧
  (∀ b tasks task t td, b ∈ requests d → DescribeTasks c b = Some tasks →
     task ∈ tasks → TaskArn task = Some t → TaskDefinitionArn task = Some td →
     td ∈ taskDefArns d ∧
     ∃ S, taskDefToService d !! td = Some S ∧ default "" (t2s !! t) ∈ S) ∧
  (∀ td, td ∈ taskDefArns d ↔ is_Some (taskDefToService d !! td)) ∧
  (∀ td S, taskDefToService d !! td = Some S → S ≠ ∅) ∧
  (∀ b tasks task, b ∈ requests d → DescribeTasks c b = Some tasks →
     task ∈ tasks → is_Some (task_ids task)).
Proof.
  intros Hd. pose proof (describeTasks_requests _ _ _ _ Hd) as (_ & _ & Hcat).
  unfold describeTasks in Hd.
  apply describe_loop_fold in Hd as (bs & E & Hfold & Hok). simpl in E, Hfold.
  subst bs.
  assert (taskDefArns d = (record_all t2s (recorded_of c (requests d)) (∅, ∅)).1)
    as Hdefs by (by rewrite <- Hfold).
  assert (taskDefToService d = (record_all t2s (recorded_of c (requests d)) (∅, ∅)).2)
    as Hown by (by rewrite <- Hfold).
  clear Hfold.
  assert (∀ td, is_Some (taskDefToService d !! td) →
            ∃ t, (t, td) ∈ recorded_of c (requests d)) as Hdom.
  { intros td H. rewrite Hown in H. apply recs_fold_dom in H as [[? H]|H]; [|done].
    simpl in H. by rewrite lookup_empty in H. }
  split_and!; try done.
  - intros td S s HS Hs. rewrite Hown in HS.
    destruct (recs_fold_sound _ _ _ _ _ _ HS Hs) as [(S0 & H0 & _)|(t & Hin & ->)].
    { simpl in H0. by rewrite lookup_empty in H0. }
    apply elem_of_recorded_of in Hin as (b & tasks & task & Hb & Eb & Htask & Et & Etd).
    by exists b, tasks, task, t.
  - intros b tasks task t td Hb Eb Htask Et Etd.
    assert ((t, td) ∈ recorded_of c (requests d)) as Hin.
    { apply elem_of_recorded_of. exists b, tasks, task. done. }
    split.
    + rewrite Hdefs. apply recs_fold_defs. right. by exists t.
    + rewrite Hown. by apply recs_fold_complete.
  - intros td. rewrite Hdefs, recs_fold_defs. simpl. split.
    + intros [?%elem_of_empty|[t Hin]]; [done|]. rewrite Hown.
      destruct (recs_fold_complete t2s _ (∅, ∅) _ _ Hin) as (S & -> & _). done.
    + intros H. right. by apply Hdom.
  - intros td S HS ->. destruct (Hdom td) as [t Hin]; [by rewrite HS|].
    rewrite Hown in HS.
    destruct (recs_fold_complete t2s _ (∅, ∅) _ _ Hin) as (S & HS' & Hs).
    rewrite HS in HS'. simplify_eq. by apply elem_of_empty in Hs.
Qed.

End DescribeResult.

(** ** Stage 4: what the writes of the second pool add up to *)

Section ImageFacts.
Variable c : Client.
Variable owners : gmap string (gset string).

Lemma set_fold_alter_lookup (image : string) (services : gset string)
    (m : gmap string (gset string)) (S0 : gset string) (img : string) :
  m !! image = Some S0 →
  set_fold (λ svc acc, alter (λ s, {[svc]} ∪ s) image acc) m services !! img =
  if decide (image = img) then Some (services ∪ S0) else m !! img.
Proof.
  intros E0.
  apply (set_fold_ind_L
    (λ acc X, acc !! img = if decide (image = img) then Some (X ∪ S0) else m !! img)).
  - case_decide; [subst; rewrite E0; f_equal; by rewrite (left_id_L ∅ (∪))|done].
  - intros svc X acc Hnin IH. case_decide.
    + subst. rewrite lookup_alter_eq, IH. simpl. f_equal.
      by rewrite (assoc_L (∪)).
    + by rewrite lookup_alter_ne.
Qed.

Lemma mergeImage_lookup (image : string) (services : gset string)
    (m : gmap string (gset string)) (img : string) :
  mergeImage (Owners image services) m !! img =
  if decide (image = img) then Some (services ∪ default ∅ (m !! image))
  else m !! img.
Proof.
  unfold mergeImage. destruct (m !! image) as [S0|] eqn:E.
  - by apply set_fold_alter_lookup.
  - rewrite (set_fold_alter_lookup _ _ _ ∅) by apply lookup_insert_eq.
    case_decide; [done|]. by rewrite lookup_insert_ne.
Qed.

Local Abbreviation merge_all its tr := (foldl (λ s op, mergeImage op s) its tr).

Lemma merge_all_sound (tr : list ImageOp) (its : gmap string (gset string))
    (img : string) (S : gset string) (s : string) :
  merge_all its tr !! img = Some S → s ∈ S →
  (∃ S0, its !! img = Some S0 ∧ s ∈ S0) ∨
  ∃ services, Owners img services ∈ tr ∧ s ∈ services.
Proof.
  revert its; induction tr as [|[image services] tr IH]; intros its HS Hs;
    cbn [foldl] in *; [left; eauto|].
  destruct (IH _ HS Hs) as [(S0 & E & Hs0)|(sv & Hin & ?)].
  - rewrite mergeImage_lookup in E. case_decide; [|left; eauto].
    simplify_eq. apply elem_of_union in Hs0 as [?|Hs0].
    + right. exists services. split; [by left|done].
    + left. destruct (its !! img) as [S0|]; [eauto|]. by apply elem_of_empty in Hs0.
  - right. exists sv. split; [by right|done].
Qed.

Lemma merge_all_dom (tr : list ImageOp) (its : gmap string (gset string))
    (img : string) :
  is_Some (merge_all its tr !! img) →
  is_Some (its !! img) ∨ ∃ services, Owners img services ∈ tr.
Proof.
  revert its; induction tr as [|[image services] tr IH]; intros its; cbn [foldl];
    [by left|].
  intros [H|[sv Hin]]%IH.
  - rewrite mergeImage_lookup in H. case_decide; [|by left].
    subst. right. exists services. by left.
  - right. exists sv. by right.
Qed.

Lemma merge_all_mono (tr : list ImageOp) (its : gmap string (gset string))
    (img : string) (S0 : gset string) :
  its !! img = Some S0 → ∃ S, merge_all its tr !! img = Some S ∧ S0 ⊆ S.
Proof.
  revert its S0; induction tr as [|[image services] tr IH]; intros its S0 E;
    cbn [foldl]; [eauto|].
  destruct (decide (image = img)) as [->|Hne].
  - destruct (IH (mergeImage (Owners img services) its) (services ∪ S0))
      as (S & ES & Hsub).
    { rewrite mergeImage_lookup, decide_True by done. by rewrite E. }
    exists S. split; [done|]. set_solver.
  - apply IH. by rewrite mergeImage_lookup, decide_False.
Qed.

Lemma merge_all_complete (tr : list ImageOp) (its : gmap string (gset string))
    (img : string) (services : gset string) :
  Owners img services ∈ tr →
  ∃ S, merge_all its tr !! img = Some S ∧ services ⊆ S.
Proof.
  revert its; induction tr as [|[image sv] tr IH]; intros its Hin; cbn [foldl].
  - by apply elem_of_nil in Hin.
  - apply elem_of_cons in Hin as [Heq|Hin]; [|by apply IH].
    injection Heq as <- <-.
    destruct (merge_all_mono tr (mergeImage (Owners img services) its) img
                (services ∪ default ∅ (its !! img))) as (S & ES & Hsub).
    { by rewrite mergeImage_lookup, decide_True. }
    exists S. split; [done|]. set_solver.
Qed.

(** The writes of the goroutine of one task definition. *)
Lemma containers_prog_crits (services : gset string)
    (containers : list ContainerDefinition) (op : ImageOp) :
  op ∈ Pool.crits (containers_prog services containers) →
  ∃ cn img, cn ∈ containers ∧ Image cn = Some img ∧ op = Owners img services.
Proof.
  induction containers as [|cn containers IH]; simpl; [by intros ?%elem_of_nil|].
  destruct (Image cn) as [img|] eqn:E; simpl; [|by intros ?%elem_of_nil].
  intros [->|Hin]%elem_of_cons.
  - exists cn, img. split; [by left|done].
  - destruct (IH Hin) as (cn' & img' & ? & ? & ?). exists cn', img'.
    split; [by right|done].
Qed.

Lemma containers_prog_no_panic (services : gset string)
    (containers : list ContainerDefinition) :
  Pool.panics (containers_prog services containers) = false →
  ∀ cn, cn ∈ containers →
    ∃ img, Image cn = Some img ∧
      Owners img services ∈ Pool.crits (containers_prog services containers).
Proof.
  induction containers as [|cn containers IH]; simpl;
    [by intros _ cn ?%elem_of_nil|].
  destruct (Image cn) as [img|] eqn:E; simpl; [|done].
  intros Hp cn' [->|Hin]%elem_of_cons.
  - exists img. split; [done|by left].
  - destruct (IH Hp cn' Hin) as (img' & ? & ?). exists img'. split; [done|by right].
Qed.

Lemma containers_prog_panics (services : gset string)
    (containers : list ContainerDefinition) :
  (∀ cn, cn ∈ containers → is_Some (Image cn)) →
  Pool.panics (containers_prog services containers) = false.
Proof.
  induction containers as [|cn containers IH]; intros Hall; simpl; [done|].
  destruct (Hall cn) as [img ->]; [by left|]. simpl.
  apply IH. intros cn' ?. apply Hall. by right.
Qed.

(** The results of the second pool once [wg.Wait()] has returned. *)
Lemma describeDefsPool_returned (defs : list string) (cs : list Pool.Choice)
    (st : Pool.State string ImageOp (gmap string (gset string))) :
  describeDefsPool c owners defs cs = Some st → Pool.pc st = Pool.Returned →
  (∀ img S s, Pool.shared st !! img = Some S → s ∈ S →
     ∃ td containers cn, td ∈ defs ∧
       DescribeTaskDefinition c td = Some (Some containers) ∧
       cn ∈ containers ∧ Image cn = Some img ∧ s ∈ default ∅ (owners !! td)) ∧
  (∀ img, is_Some (Pool.shared st !! img) →
     ∃ td containers cn, td ∈ defs ∧
       DescribeTaskDefinition c td = Some (Some containers) ∧
       cn ∈ containers ∧ Image cn = Some img ∧
       ∃ S, Pool.shared st !! img = Some S ∧ default ∅ (owners !! td) ⊆ S) ∧
  (∀ td containers cn, td ∈ defs →
     DescribeTaskDefinition c td = Some (Some containers) → cn ∈ containers →
     ∃ img S, Image cn = Some img ∧ Pool.shared st !! img = Some S ∧
       default ∅ (owners !! td) ⊆ S) ∧
  (∀ td, td ∈ defs → DescribeTaskDefinition c td ≠ Some None).
Proof.
  intros Hrun Hret. unfold describeDefsPool in Hrun.
  destruct (returned_shared _ _ _ _ _ _ Hrun Hret) as (Htr & Hsh & Hnp).
  rewrite Hsh. clear Hsh. rewrite Forall_forall in Hnp.
  assert (∀ op, op ∈ Pool.trace st →
            ∃ td containers cn img, td ∈ defs ∧
              DescribeTaskDefinition c td = Some (Some containers) ∧
              cn ∈ containers ∧ Image cn = Some img ∧
              op = Owners img (default ∅ (owners !! td))) as Hop.
  { intros op. rewrite Htr, elem_of_concat.
    intros (l & (td & -> & Htd)%elem_of_map & Hin).
    unfold describeDef_prog in Hin.
    destruct (DescribeTaskDefinition c td) as [[containers|]|] eqn:E;
      try by apply elem_of_nil in Hin.
    apply containers_prog_crits in Hin as (cn & img & ? & ? & ?).
    by exists td, containers, cn, img. }
  assert (∀ td containers cn, td ∈ defs →
            DescribeTaskDefinition c td = Some (Some containers) → cn ∈ containers →
            ∃ img, Image cn = Some img ∧
              Owners img (default ∅ (owners !! td)) ∈ Pool.trace st) as Hin.
  { intros td containers cn Htd E Hcn. specialize (Hnp td Htd).
    unfold describeDef_prog in Hnp. rewrite E in Hnp.
    destruct (containers_prog_no_panic _ _ Hnp cn Hcn) as (img & Himg & Hm).
    exists img. split; [done|]. rewrite Htr. apply elem_of_concat.
    eexists. split; [apply elem_of_map; by exists td|].
    unfold describeDef_prog. by rewrite E. }
  split_and!.
  - intros img S s HS Hs.
    destruct (merge_all_sound _ _ _ _ _ HS Hs) as [(S0 & H0 & _)|(sv & Hsv & ?)].
    { by rewrite lookup_empty in H0. }
    apply Hop in Hsv as (td & containers & cn & img' & ? & ? & ? & ? & Heq).
    simplify_eq. by exists td, containers, cn.
  - intros img H. pose proof H as H'.
    apply merge_all_dom in H as [[? H]|[sv Hsv]]; [by rewrite lookup_empty in H|].
    pose proof Hsv as Hsv'.
    apply Hop in Hsv as (td & containers & cn & img' & ? & ? & ? & ? & Heq).
    simplify_eq. exists td, containers, cn. split_and!; try done.
    by apply merge_all_complete.
  - intros td containers cn Htd E Hcn.
    destruct (Hin _ _ _ Htd E Hcn) as (img & Himg & Hm).
    destruct (merge_all_complete _ ∅ _ _ Hm) as (S & HS & Hsub).
    by exists img, S.
  - intros td Htd E. specialize (Hnp td Htd).
    unfold describeDef_prog in Hnp. by rewrite E in Hnp.
Qed.

End ImageFacts.


(** ** The program as a whole *)

Lemma names_loop_names (arns pre : list string) (m0 m : gmap string string)
    (names : list string) :
  names_loop arns (length pre) (pre ++ replicate (length arns) "") m0 =
    Some (names, m) →
  ∃ ns, names = pre ++ ns ∧ Forall2 (λ arn n, Arn.shortName arn = Some n) arns ns.
Proof.
  revert pre m0; induction arns as [|arn arns IH]; intros pre m0 H; simpl in H.
  - simplify_eq. exists []. split; [done|constructor].
  - destruct (Arn.shortName arn) as [name|] eqn:E; [|done].
    rewrite insert_app_r_alt, Nat.sub_diag in H by done. simpl in H.
    rewrite (cons_middle name), app_assoc in H.
    replace (S (length pre)) with (length (pre ++ [name])) in H
      by (rewrite length_app; simpl; lia).
    apply IH in H as (ns & -> & Hns). exists (name :: ns).
    rewrite <- app_assoc. split; [done|]. by constructor.
Qed.

Lemma deriveNames_names (arns names : list string) (m : gmap string string) :
  deriveNames arns = Some (names, m) →
  Forall2 (λ arn n, Arn.shortName arn = Some n) arns names.
Proof.
  intros H. apply (names_loop_names arns [] ∅ m names) in H as (ns & -> & H).
  done.
Qed.

Lemma names_loop_total (arns : list string) (i : nat) (names : list string)
    (m : gmap string string) :
  Forall (λ arn, is_Some (Arn.shortName arn)) arns →
  is_Some (names_loop arns i names m).
Proof.
  revert i names m; induction arns as [|arn arns IH]; intros i names m Hall;
    simpl; [done|].
  inversion Hall as [|? ? [name E] Hall']; subst. rewrite E. by apply IH.
Qed.

Lemma names_loop_None (arns : list string) (i : nat) (names : list string)
    (m : gmap string string) :
  names_loop arns i names m = None ↔ "" ∈ arns.
Proof.
  revert i names m; induction arns as [|arn arns IH]; intros i names m; simpl.
  - split; [done|by intros ?%elem_of_nil].
  - rewrite elem_of_cons. destruct (Arn.shortName arn) as [name|] eqn:E.
    + rewrite IH. split; [by right|]. intros [<-|?]; [done|done].
    + apply shortName_None in E as ->. split; [by left|done].
Qed.

(** The short names of an enumeration are those of its identifiers. *)
Lemma shortNames_elem (arns names : list string) (s : string) :
  Forall2 (λ arn n, Arn.shortName arn = Some n) arns names →
  s ∈ names ↔ ∃ arn, arn ∈ arns ∧ Arn.shortName arn = Some s.
Proof.
  induction 1 as [|arn n arns names E _ IH].
  - split; [by intros ?%elem_of_nil|by intros (? & ?%elem_of_nil & _)].
  - rewrite elem_of_cons, IH. split.
    + intros [->|(a & ? & ?)]; [exists arn; split; [by left|done]|].
      exists a. split; [by right|done].
    + intros (a & [->|?]%elem_of_cons & Ea); [left; congruence|right; eauto].
Qed.

(** What a run that reaches the report has gone through. *)
Lemma main_report (env : Env) (σ : Sched) (out : list string) (f : Final) :
  main env σ = Some (mkResult out (Success (Some f))) →
  cluster env ≠ "" ∧ configLoads env = true ∧
  ∃ arns m st1 st2,
    listServices (ListServicesPages (client env)) [] = Some arns ∧
    arns ≠ [] ∧
    deriveNames arns = Some (serviceNames f, m) ∧
    listTasksPool (client env) (serviceNames f) (sched1 σ) = Some st1 ∧
    Pool.pc st1 = Pool.Returned ∧
    Pool.shared st1 = (taskArns f, taskToService f) ∧
    taskArns f ≠ [] ∧
    describeTasks (client env) (taskToService f) (taskArns f) = Some (definitions f) ∧
    defOrder σ ≡ₚ elements (taskDefArns (definitions f)) ∧
    describeDefsPool (client env) (taskDefToService (definitions f)) (defOrder σ)
      (sched2 σ) = Some st2 ∧
    Pool.pc st2 = Pool.Returned ∧
    Pool.shared st2 = imageToServices f.
Proof.
  unfold main. case_decide as Hc; [done|].
  destruct (configLoads env) eqn:Hcfg; simpl; [|done].
  destruct (listServices _ _) as [arns|] eqn:Hls; [|done].
  case_decide as Hlen; [done|].
  destruct (deriveNames arns) as [[names m]|] eqn:Hn; [|done].
  destruct (listTasksPool _ _ _) as [st1|] eqn:H1; simpl; [|done].
  destruct (Pool.crashed st1) eqn:Hcr1; [done|].
  destruct (Pool.pc st1) eqn:Hpc1; [done|].
  destruct (Pool.shared st1) as [tasks owner] eqn:Hsh1.
  case_decide as Hlen2; [done|].
  destruct (describeTasks _ _ _) as [d|] eqn:Hd; [|done].
  case_bool_decide as Hperm; [|done].
  destruct (describeDefsPool _ _ _ _) as [st2|] eqn:H2; simpl; [|done].
  destruct (Pool.crashed st2) eqn:Hcr2; [done|].
  destruct (Pool.pc st2) eqn:Hpc2; [done|].
  intros H. simplify_eq. simpl. split_and!; try done.
  exists arns, m, st1, st2. split_and!; try done.
  - by destruct arns.
  - by destruct tasks.
Qed.

(** The facts about the report that the claims rest on. *)
Lemma report_facts (env : Env) (σ : Sched) (out : list string) (f : Final) :
  main env σ = Some (mkResult out (Success (Some f))) →
  let c := client env in
  let d := definitions f in
  (∃ arns, listServices (ListServicesPages c) [] = Some arns ∧
     ∀ s, s ∈ serviceNames f ↔ ∃ arn, arn ∈ arns ∧ Arn.shortName arn = Some s) ∧
  (taskArns f ≡ₚ concat (omap (ListTasks c) (serviceNames f)) ∧
   (∀ t, t ∈ taskArns f ↔ is_Some (taskToService f !! t)) ∧
   (∀ t o, taskToService f !! t = Some o →
      o ∈ serviceNames f ∧ ∃ ts, ListTasks c o = Some ts ∧ t ∈ ts) ∧
   (∀ s ts t, s ∈ serviceNames f → ListTasks c s = Some ts → t ∈ ts →
      t ∈ taskArns f ∧
      ((∀ s' ts', s' ∈ serviceNames f → ListTasks c s' = Some ts' → t ∈ ts' → s' = s) →
       taskToService f !! t = Some s))) ∧
  describeTasks c (taskToService f) (taskArns f) = Some d ∧
  (∀ img S s, imageToServices f !! img = Some S → s ∈ S →
     ∃ td containers cn, td ∈ taskDefArns d ∧
       DescribeTaskDefinition c td = Some (Some containers) ∧
       cn ∈ containers ∧ Image cn = Some img ∧
       s ∈ default ∅ (taskDefToService d !! td)) ∧
  (∀ img, is_Some (imageToServices f !! img) →
     ∃ td containers cn, td ∈ taskDefArns d ∧
       DescribeTaskDefinition c td = Some (Some containers) ∧
       cn ∈ containers ∧ Image cn = Some img ∧
       ∃ S, imageToServices f !! img = Some S ∧
         default ∅ (taskDefToService d !! td) ⊆ S) ∧
  (∀ td containers cn, td ∈ taskDefArns d →
     DescribeTaskDefinition c td = Some (Some containers) → cn ∈ containers →
     ∃ img S, Image cn = Some img ∧ imageToServices f !! img = Some S ∧
       default ∅ (taskDefToService d !! td) ⊆ S) ∧
  (∀ td, td ∈ taskDefArns d → DescribeTaskDefinition c td ≠ Some None).
Proof.
  intros (Hc & Hcfg & arns & m & st1 & st2 & Hls & Hne & Hn & H1 & Hpc1 & Hsh1 &
          Hne2 & Hd & Hperm & H2 & Hpc2 & Hsh2)%main_report.
  intros c d.
  pose proof (listTasksPool_returned _ _ _ _ H1 Hpc1) as Hst2.
  rewrite Hsh1 in Hst2. simpl in Hst2.
  pose proof (describeDefsPool_returned _ _ _ _ _ H2 Hpc2) as Hst4.
  rewrite Hsh2 in Hst4.
  assert (∀ td, td ∈ defOrder σ ↔ td ∈ taskDefArns d) as Hdefs.
  { intros td. rewrite Hperm. apply elem_of_elements. }
  destruct Hst4 as (A1 & A2 & A3 & A4). destruct Hst2 as (B1 & B2 & B3 & B4).
  split_and!; try done.
  - exists arns. split; [done|]. intros s. apply shortNames_elem.
    by eapply deriveNames_names.
  - intros img S s HS Hs. destruct (A1 _ _ _ HS Hs) as (td & cs & cn & ? & ?).
    exists td, cs, cn. by rewrite <- Hdefs.
  - intros img H. destruct (A2 _ H) as (td & cs & cn & ? & ?).
    exists td, cs, cn. by rewrite <- Hdefs.
  - intros td cs cn Htd. apply A3. by apply Hdefs.
  - intros td Htd. apply A4. by apply Hdefs.
Qed.

(** The owner of a described task is listed under every image that the
    definition of the task declares, with all the owners of the
    definition. *)
Lemma owner_reaches_image (env : Env) (σ : Sched) (out : list string) (f : Final)
    (td svc img : string) :
  main env σ = Some (mkResult out (Success (Some f))) →
  described_for (client env) f td svc →
  declares (client env) td img →
  ∃ S0 S, taskDefToService (definitions f) !! td = Some S0 ∧ svc ∈ S0 ∧
          imageToServices f !! img = Some S ∧ S0 ⊆ S.
Proof.
  intros Hmain (b & tasks & task & t & Hb & Eb & Htask & Et & Etd & Ho)
         (containers & cn & Hdesc & Hcn & Himg).
  destruct (report_facts _ _ _ _ Hmain) as (_ & _ & Hd & _ & _ & Hall & _).
  apply describeTasks_result in Hd as (_ & _ & Hrec & _).
  destruct (Hrec _ _ _ _ _ Hb Eb Htask Et Etd) as (Htd & S0 & HS0 & Hin).
  rewrite Ho in Hin. simpl in Hin.
  destruct (Hall _ _ _ Htd Hdesc Hcn) as (img' & S & Himg' & HS & Hsub).
  rewrite Himg in Himg'. injection Himg' as <-.
  rewrite HS0 in Hsub. simpl in Hsub. by exists S0, S.
Qed.


(** C9: the short-name derivation is partial.  On the empty identifier,
    and on no other, [splitArn] returns no segment and the access
    [parts[len(parts)-1]] is out of range: a run whose enumeration holds
    the empty identifier ends in a run-time panic.  On an identifier made
    of separators only, every segment is empty: the short name is the
    empty string, and a run that reaches the report has it among its
    service names. *)
Theorem shortName_not_total :
  Arn.splitArn "" = [] ∧
  (∀ arn, Arn.shortName arn = None ↔ arn = "") ∧
  (∀ n, Arn.splitArn (Arn.slashes (S n)) = replicate (S n) "" ∧
        Arn.shortName (Arn.slashes (S n)) = Some "") ∧
  (∀ env σ arns,
     cluster env ≠ "" → configLoads env = true →
     listServices (ListServicesPages (client env)) [] = Some arns → "" ∈ arns →
     main env σ =
       Some (mkResult ["Fetching services in cluster '" +:+ cluster env +:+ "'..."]
               RuntimePanic)) ∧
  (∀ env σ out f arns n,
     main env σ = Some (mkResult out (Success (Some f))) →
     listServices (ListServicesPages (client env)) [] = Some arns →
     Arn.slashes (S n) ∈ arns → "" ∈ serviceNames f).
Proof.
  assert (∀ n, Arn.shortName (Arn.slashes (S n)) = Some "") as Hslashes.
  { intros n. rewrite shortName_scan, scan_slashes. simpl.
    change ("" :: replicate n "") with (replicate (S n) "").
    rewrite replicate_S_end. apply last_snoc. }
  split_and!.
  - reflexivity.
  - apply shortName_None.
  - intros n. split; [|done].
    rewrite splitArn_scan, scan_slashes. simpl. by rewrite app_nil_r.
  - intros env σ arns Hc Hcfg Hls Hin. unfold main.
    rewrite decide_False, Hcfg, Hls by done. simpl.
    rewrite decide_False by (intros ?; destruct arns; [by apply elem_of_nil in Hin|done]).
    unfold deriveNames.
    by rewrite (proj2 (names_loop_None arns 0 (replicate (length arns) "") ∅) Hin).
  - intros env σ out f arns n Hmain Hls Hin.
    destruct (report_facts _ _ _ _ Hmain) as ((arns' & Hls' & Hnames) & _).
    rewrite Hls in Hls'. injection Hls' as <-. apply Hnames. eauto.
Qed.

Lemma shortName_not_total_witness :
  main Demo.env_blank (seq_run Demo.env_blank) =
    Some (mkResult ["Fetching services in cluster 'prod'..."] RuntimePanic).
Proof.
  destruct shortName_not_total as (_ & _ & _ & Hpanic & _).
  apply (Hpanic Demo.env_blank (seq_run Demo.env_blank)
           ["arn:aws:ecs:r:1:service/prod/svc-a"; ""]);
    [discriminate|reflexivity|reflexivity|by right; left].
Defined.


(** * The claims *)



(** C10: in the report, every image has at least one owning service, so
    that the branch printing "No active services using this image" is not
    taken: every entry of the definition-ownership map holds a service,
    and every image entry receives such an entry whole. *)
Theorem image_owners_nonempty (env : Env) (σ : Sched) (out : list string)
    (f : Final) :
  main env σ = Some (mkResult out (Success (Some f))) →
  (∀ td S, taskDefToService (definitions f) !! td = Some S → S ≠ ∅) ∧
  ∀ image S, imageToServices f !! image = Some S →
    0 < size S ∧
    ∀ order, report_entry image S order =
             [image] ++ ("  Services:" :: map (λ svc, "    - " +:+ svc) order) ++ [""].
Proof.
  intros Hmain. destruct (report_facts _ _ _ _ Hmain)
    as (_ & _ & Hd & _ & Hdom & _ & _).
  apply describeTasks_result in Hd as (_ & _ & _ & Hdefs & Hne & _).
  split; [done|]. intros image S HS.
  assert (0 < size S) as Hpos.
  { destruct (Hdom image) as (td & _ & _ & Htd & _ & _ & _ & S' & HS' & Hsub);
      [by rewrite HS|].
    rewrite HS in HS'. injection HS' as <-.
    apply Hdefs in Htd as [S0 HS0]. rewrite HS0 in Hsub. simpl in Hsub.
    specialize (Hne _ _ HS0).
    assert (size S ≠ 0); [|lia]. intros ->%size_empty_inv%leibniz_equiv.
    apply Hne. apply leibniz_equiv, equiv_empty. done. }
  split; [done|]. intros order. unfold report_entry. by rewrite decide_True.
Qed.

Lemma image_owners_nonempty_witness :
  ∃ out f, main Demo.env (seq_run Demo.env) = Some (mkResult out (Success (Some f))) ∧
    (∀ td S, taskDefToService (definitions f) !! td = Some S → S ≠ ∅) ∧
    ∀ image S, imageToServices f !! image = Some S →
      0 < size S ∧
      ∀ order, report_entry image S order =
               [image] ++ ("  Services:" :: map (λ svc, "    - " +:+ svc) order) ++ [""].
Proof.
  eexists _, _. split; [vm_compute; reflexivity|].
  eapply (image_owners_nonempty Demo.env (seq_run Demo.env)).
  vm_compute; reflexivity.
Defined.

(** C2: when services [A] and [B] each own a successfully described task
    that runs definition [td], every image that [td] declares ends up
    with both in its owning set; the whole ownership set of [td] is
    merged into the entry of the image (nothing is lost), and the set
    lists every service once. *)
Theorem union_correct (env : Env) (σ : Sched) (out : list string) (f : Final)
    (td A B img : string) :
  main env σ = Some (mkResult out (Success (Some f))) →
  described_for (client env) f td A →
  described_for (client env) f td B →
  declares (client env) td img →
  ∃ S, imageToServices f !! img = Some S ∧ A ∈ S ∧ B ∈ S ∧
       NoDup (elements S) ∧
       ∀ S0, taskDefToService (definitions f) !! td = Some S0 → S0 ⊆ S.
Proof.
  intros Hmain HA HB Hdecl.
  destruct (owner_reaches_image _ _ _ _ _ _ _ Hmain HA Hdecl)
    as (SA & S & HSA & HinA & HS & Hsub).
  destruct (owner_reaches_image _ _ _ _ _ _ _ Hmain HB Hdecl)
    as (SB & S' & HSB & HinB & HS' & _).
  rewrite HSA in HSB. injection HSB as <-.
  exists S. split_and!; [done|set_solver|set_solver|apply NoDup_elements|].
  intros S0 HS0. rewrite HSA in HS0. by injection HS0 as <-.
Qed.

Lemma union_correct_witness :
  ∃ out f, main Demo.env (seq_run Demo.env) = Some (mkResult out (Success (Some f))) ∧
    ∃ S, imageToServices f !! "repo/app:1" = Some S ∧
         "svc-a" ∈ S ∧ "svc-b" ∈ S ∧ NoDup (elements S) ∧
         ∀ S0, taskDefToService (definitions f) !! "def-1" = Some S0 → S0 ⊆ S.
Proof.
  eexists _, _. split; [vm_compute; reflexivity|].
  eapply (union_correct Demo.env (seq_run Demo.env)).
  - vm_compute; reflexivity.
  - eexists ["t1"; "t2"], _, (mkTask (Some "t1") (Some "def-1")), "t1".
    split_and!; [by left|reflexivity|by left|reflexivity..].
  - eexists ["t1"; "t2"], _, (mkTask (Some "t2") (Some "def-1")), "t2".
    split_and!; [by left|reflexivity|by right; left|reflexivity..].
  - eexists _, (mkContainer (Some "repo/app:1")).
    split_and!; [reflexivity|by left|reflexivity].
Defined.


(** C8 (counterexample): the service answers a description with a task
    that was not listed and with a container whose image is the empty
    string; the report then has the empty string as an image key, owned
    by the empty string, which is the short name of no enumerated
    service. *)
Lemma ownership_invariant_fails :
  ∃ out f,
    main Demo.env_odd (seq_run Demo.env_odd) = Some (mkResult out (Success (Some f))) ∧
    listServices (ListServicesPages (client Demo.env_odd)) [] =
      Some ["arn:aws:ecs:r:1:service/prod/svc-a"] ∧
    imageToServices f !! "" = Some {[""]} ∧
    ¬ ownership_invariant ["arn:aws:ecs:r:1:service/prod/svc-a"] f.
Proof.
  eexists _, _. split; [vm_compute; reflexivity|]. split; [reflexivity|].
  assert (∀ m : gmap string (gset string), m !! "" = Some {[""]} →
            is_Some (m !! "")) as Hsome by (intros m ->; eauto).
  split; [vm_compute; reflexivity|].
  intros (_ & _ & Hkey & _). eapply Hkey; [|reflexivity].
  apply Hsome. vm_compute; reflexivity.
Qed.

(** C8 (amended): in every final state of a run in which every task that
    a bulk description returns is one of the tasks asked for, and no
    container image returned is the empty string: every service name in a
    definition-ownership or image-ownership set is a short name derived
    from the enumeration, every image key is non-empty, and no ownership
    set lists a service twice. *)
Theorem ownership_invariant_holds (env : Env) (σ : Sched) (out : list string)
    (f : Final) (arns : list string) :
  main env σ = Some (mkResult out (Success (Some f))) →
  listServices (ListServicesPages (client env)) [] = Some arns →
  (∀ b tasks task t, DescribeTasks (client env) b = Some tasks →
     task ∈ tasks → TaskArn task = Some t → t ∈ b) →
  (∀ td containers cn, DescribeTaskDefinition (client env) td = Some (Some containers) →
     cn ∈ containers → Image cn ≠ Some "") →
  ownership_invariant arns f.
Proof.
  intros Hmain Hls Hasked Himg.
  destruct (report_facts _ _ _ _ Hmain)
    as ((arns' & Hls' & Hnames) & (_ & Hdom & Hown & _) & Hd & Hsound & Hkeys & _).
  rewrite Hls in Hls'. injection Hls' as <-.
  apply describeTasks_result in Hd as (Hcat & Hsrc & _).
  assert (∀ td S s, taskDefToService (definitions f) !! td = Some S → s ∈ S →
            ∃ arn, arn ∈ arns ∧ Arn.shortName arn = Some s) as Hdefs.
  { intros td S s HS Hs.
    destruct (Hsrc _ _ _ HS Hs) as (b & tasks & task & t & Hb & Eb & Htask & Et & _ & ->).
    assert (t ∈ taskArns f) as Ht.
    { rewrite <- Hcat. apply elem_of_concat. exists b. split; [done|].
      by eapply Hasked. }
    apply Hdom in Ht as [o Ho]. rewrite Ho. simpl.
    apply Hnames. by apply (Hown t). }
  split_and!.
  - done.
  - intros img S s HS Hs.
    destruct (Hsound _ _ _ HS Hs) as (td & _ & _ & _ & _ & _ & _ & Hin).
    destruct (taskDefToService (definitions f) !! td) as [S0|] eqn:E;
      [|by apply elem_of_empty in Hin].
    by eapply Hdefs.
  - intros img H ->.
    destruct (Hkeys _ H) as (td & containers & cn & _ & Hdesc & Hcn & Hi & _).
    by eapply Himg.
  - intros. apply NoDup_elements.
  - intros. apply NoDup_elements.
Qed.

Lemma ownership_invariant_holds_witness :
  ∃ out f,
    main Demo.env (seq_run Demo.env) = Some (mkResult out (Success (Some f))) ∧
    ownership_invariant
      ["arn:aws:ecs:r:1:service/prod/svc-a"; "arn:aws:ecs:r:1:service/prod/svc-b"] f.
Proof.
  eexists _, _. split; [vm_compute; reflexivity|].
  eapply (ownership_invariant_holds Demo.env (seq_run Demo.env)).
  - vm_compute; reflexivity.
  - reflexivity.
  - intros b tasks task t [= <-] (t' & -> & Ht')%elem_of_map [= <-]. done.
  - intros td containers cn [= <-] (img & -> & Hin)%elem_of_map [= ->].
    simpl in Hin. case_decide; [|by apply elem_of_nil in Hin].
    by repeat apply elem_of_cons in Hin as [?|Hin]; [..|apply elem_of_nil in Hin].
Defined.


(** The first pool under the sequential schedule. *)
Lemma listTasksPool_seq (c : Client) (names : list string) :
  ∃ st, listTasksPool c names (Pool.seq_sched (listTasks_prog c) names) = Some st ∧
    Pool.pc st = Pool.Returned ∧ Pool.crashed st = false.
Proof.
  destruct (run_seq_sched (listTasks_prog c) addTasks names ([], ∅))
    as (st & Hrun & Hend).
  rewrite listTasks_no_panic in Hend. by exists st.
Qed.

(** The first pool does not crash. *)
Lemma listTasksPool_no_crash (c : Client) (names : list string)
    (cs : list Pool.Choice)
    (st : Pool.State string ListOp (list string * gmap string string)) :
  listTasksPool c names cs = Some st → Pool.crashed st = false.
Proof.
  intros Hrun. destruct (Pool.crashed st) eqn:Hcr; [|done].
  destruct (crashed_panics _ _ _ _ _ _ Hrun Hcr) as (x & _ & Hp).
  unfold listTasks_prog in Hp. by destruct (ListTasks c x).
Qed.

(** C6: when the enumeration completes without a service, the program
    prints "No services found." and returns from [main] (exit status 0)
    without a report; when the task list is empty once the first pool
    has returned, it prints "No tasks found." and returns likewise.  The
    second exit is taken by every run, and by at least one, when every
    listing fails or lists nothing. *)
Theorem empty_results_exit_successfully (env : Env) :
  cluster env ≠ "" → configLoads env = true →
  let fetching := "Fetching services in cluster '" +:+ cluster env +:+ "'..." in
  let no_tasks :=
    mkResult [fetching; "Fetching task ARNs for each service..."; "No tasks found."]
      (Success None) in
  (listServices (ListServicesPages (client env)) [] = Some [] →
   ∀ σ, main env σ = Some (mkResult [fetching; "No services found."] (Success None))) ∧
  (∀ arns names m,
     listServices (ListServicesPages (client env)) [] = Some arns → arns ≠ [] →
     deriveNames arns = Some (names, m) →
     (∀ σ owner bar,
        pool_end (listTasksPool (client env) names (sched1 σ)) =
          Some (Completed ([], owner) bar) →
        main env σ = Some no_tasks) ∧
     ((∀ s, s ∈ names →
         ListTasks (client env) s = None ∨ ListTasks (client env) s = Some []) →
      main env (seq_run env) = Some no_tasks ∧
      ∀ σ r, main env σ = Some r → r = no_tasks)).
Proof.
  intros Hc Hcfg fetching no_tasks. split.
  - intros Hls σ. unfold main. rewrite decide_False, Hcfg, Hls by done. done.
  - intros arns names m Hls Hne Hn.
    assert (∀ σ, main env σ =
              match pool_end (listTasksPool (client env) names (sched1 σ)) with
              | None => None
              | Some Crashed =>
                  Some (mkResult [fetching; "Fetching task ARNs for each service..."]
                          RuntimePanic)
              | Some (Completed ([], _) _) => Some no_tasks
              | Some (Completed (t :: ts, owner) _) =>
                  main env σ
              end) as Hmain.
    { intros σ. unfold main. rewrite decide_False, Hcfg, Hls by done. simpl.
      rewrite decide_False by (by destruct arns). rewrite Hn.
      by destruct (pool_end _) as [[|[[|t ts] owner] bar]|]. }
    split.
    + intros σ owner bar Hend. by rewrite Hmain, Hend.
    + intros Hidle.
      assert (concat (omap (ListTasks (client env)) names) = []) as Hnil.
      { clear -Hidle. induction names as [|s names IH]; [done|]. simpl.
        destruct (Hidle s) as [->| ->]; [by left| |];
          simpl; apply IH; intros s' ?; apply Hidle; by right. }
      assert (∀ cs st, listTasksPool (client env) names cs = Some st →
                pool_end (Some st) = None ∨
                ∃ owner bar, pool_end (Some st) = Some (Completed ([], owner) bar))
        as Hpool.
      { intros cs st Hrun. unfold pool_end.
        rewrite (listTasksPool_no_crash _ _ _ _ Hrun).
        destruct (Pool.pc st) eqn:Hpc; [by left|]. right.
        destruct (listTasksPool_returned _ _ _ _ Hrun Hpc) as (Hperm & _).
        rewrite Hnil in Hperm. apply Permutation_nil_r in Hperm.
        destruct (Pool.shared st) as [tasks owner]. simpl in Hperm. subst tasks.
        eauto. }
      split.
      * rewrite Hmain. unfold seq_run. rewrite Hls, Hn.
        destruct (listTasksPool_seq (client env) names) as (st & Hrun & Hpc & Hcr).
        rewrite Hrun. destruct (Hpool _ _ Hrun) as [Hend|(owner & bar & Hend)].
        -- unfold pool_end in Hend. by rewrite Hcr, Hpc in Hend.
        -- rewrite Hend. simpl. by rewrite Hrun, Hend.
      * intros σ r Hr. rewrite Hmain in Hr.
        destruct (listTasksPool (client env) names (sched1 σ)) as [st|] eqn:Hrun;
          [|done].
        destruct (Hpool _ _ Hrun) as [Hend|(owner & bar & Hend)];
          rewrite Hend in Hr; by simplify_eq.
Qed.

Lemma empty_results_exit_successfully_witness :
  (∀ σ, main Demo.env_empty σ =
        Some (mkResult ["Fetching services in cluster 'prod'..."; "No services found."]
                (Success None))) ∧
  main Demo.env_idle (seq_run Demo.env_idle) =
    Some (mkResult ["Fetching services in cluster 'prod'...";
                    "Fetching task ARNs for each service..."; "No tasks found."]
            (Success None)).
Proof.
  split.
  - apply (empty_results_exit_successfully Demo.env_empty); [discriminate|done..].
  - eapply (empty_results_exit_successfully Demo.env_idle);
      [discriminate|reflexivity|reflexivity|discriminate|reflexivity|].
    intros s _. simpl. case_decide; [by left|by right].
Defined.


(** A run that returns without a report found no service or no task. *)
Lemma main_no_report (env : Env) (σ : Sched) (out : list string) :
  main env σ = Some (mkResult out (Success None)) →
  listServices (ListServicesPages (client env)) [] = Some [] ∨
  ∃ arns names m st1,
    listServices (ListServicesPages (client env)) [] = Some arns ∧
    deriveNames arns = Some (names, m) ∧
    listTasksPool (client env) names (sched1 σ) = Some st1 ∧
    Pool.pc st1 = Pool.Returned ∧ (Pool.shared st1).1 = [].
Proof.
  unfold main. case_decide as Hc; [done|].
  destruct (configLoads env) eqn:Hcfg; simpl; [|done].
  destruct (listServices _ _) as [arns|] eqn:Hls; [|done].
  case_decide as Hlen; [intros _; left; by destruct arns|].
  destruct (deriveNames arns) as [[names m]|] eqn:Hn; [|done].
  destruct (listTasksPool _ _ _) as [st1|] eqn:H1; simpl; [|done].
  destruct (Pool.crashed st1) eqn:Hcr1; [done|].
  destruct (Pool.pc st1) eqn:Hpc1; [done|].
  destruct (Pool.shared st1) as [tasks owner] eqn:Hsh1.
  case_decide as Hlen2.
  - intros _. right. exists arns, names, m, st1. rewrite Hsh1.
    split_and!; try done. by destruct tasks.
  - destruct (describeTasks _ _ _) as [d|]; [|done].
    case_bool_decide; [|done].
    destruct (pool_end _) as [[|? ?]|]; done.
Qed.

Lemma answers_client_of (cl : Cluster) (pages : list (option (list string))) :
  answers cl (client_of cl pages).
Proof.
  split_and!.
  - intros s. eexists. split; [reflexivity|]. intros t.
    by rewrite list_elem_of_filter, (comm and).
  - intros b. eexists. split; [reflexivity|]. intros task.
    rewrite elem_of_map. split; intros (t & ? & ?); by exists t.
  - intros td. eexists. split; [reflexivity|]. intros cn.
    rewrite elem_of_map. split; intros (img & ? & ?); by exists img.
Qed.

Lemma describe_loop_total (c : Client) (t2s : gmap string string)
    (taskArns : list string) (n i : nat) (st : DescState) :
  (∀ b tasks task, DescribeTasks c b = Some tasks → task ∈ tasks →
     is_Some (task_ids task)) →
  is_Some (describe_loop c t2s taskArns n i st).
Proof.
  intros Hids. revert i st; induction n as [|n IH]; intros i st; simpl; [done|].
  case_decide; [|done]. set (batch := take _ _).
  destruct (DescribeTasks c batch) as [tasks|] eqn:Eb; [|apply IH].
  destruct (record_tasks_total t2s tasks (taskDefArns st, taskDefToService st))
    as [[defs owners] ->]; [intros task ?; by eapply Hids|]. apply IH.
Qed.

(** With a client that answers for a cluster and an enumeration without
    an empty identifier, the sequential schedule is one of a whole run,
    and the run returns from [main]. *)
Lemma seq_run_returns (cl : Cluster) (env : Env) (arns : list string) :
  answers cl (client env) →
  cluster env ≠ "" → configLoads env = true →
  listServices (ListServicesPages (client env)) [] = Some arns → "" ∉ arns →
  ∃ out o, main env (seq_run env) = Some (mkResult out (Success o)).
Proof.
  intros (Hlist & Hdescr & Hdefn) Hc Hcfg Hls Hblank.
  unfold main, seq_run. rewrite decide_False, Hcfg, Hls by done. simpl.
  case_decide; [eauto|].
  destruct (deriveNames arns) as [[names m]|] eqn:Hn; cycle 1.
  { unfold deriveNames in Hn. by apply names_loop_None in Hn. }
  destruct (listTasksPool_seq (client env) names) as (st1 & Hrun1 & Hpc1 & Hcr1).
  rewrite Hrun1. unfold pool_end at 2. rewrite Hcr1, Hpc1.
  destruct (Pool.shared st1) as [tasks owner] eqn:Hsh.
  destruct (describe_loop_total (client env) owner tasks (length tasks) 0
              (mkDesc ∅ ∅ 0 [])) as [d Hd].
  { intros b tasks' task Eb Htask. destruct (Hdescr b) as (tasks'' & Eb' & Htasks).
    rewrite Eb in Eb'. injection Eb' as <-.
    apply Htasks in Htask as (t & _ & ->). by eexists. }
  fold (describeTasks (client env) owner tasks) in Hd. rewrite Hd. simpl.
  rewrite Hrun1. unfold pool_end at 1. rewrite Hcr1, Hpc1, Hsh.
  case_decide; [eauto|]. rewrite Hd.
  rewrite bool_decide_eq_true_2 by done.
  destruct (run_seq_sched (describeDef_prog (client env) (taskDefToService d))
              mergeImage (elements (taskDefArns d)) ∅) as (st2 & Hrun2 & Hend).
  assert (forallb (λ x, negb (Pool.panics
            (describeDef_prog (client env) (taskDefToService d) x)))
            (elements (taskDefArns d)) = true) as Hnp.
  { apply forallb_forall. intros td _. unfold describeDef_prog.
    destruct (Hdefn td) as (containers & -> & Hcont).
    rewrite containers_prog_panics; [done|].
    intros cn (img & _ & ->)%Hcont. by eexists. }
  rewrite Hnp in Hend. destruct Hend as [Hpc2 Hcr2].
  unfold describeDefsPool. cbn [defOrder sched2]. rewrite Hrun2.
  unfold pool_end. rewrite Hcr2, Hpc2. eauto.
Qed.

(** C1: when every call succeeds and tells the state of the cluster, a
    run returns from [main] under the sequential schedule (provided no
    enumerated identifier is empty), and in every run that returns from
    [main] a service of the enumeration is listed under at least one
    image of the report if and only if it has a running task whose task
    definition declares a container image. *)
Theorem completeness_under_success (cl : Cluster) (env : Env)
    (arns : list string) :
  answers cl (client env) →
  listServices (ListServicesPages (client env)) [] = Some arns →
  (cluster env ≠ "" → configLoads env = true → "" ∉ arns →
   ∃ out o, main env (seq_run env) = Some (mkResult out (Success o))) ∧
  ∀ σ r o, main env σ = Some r → status r = Success o →
    ∀ arn s, arn ∈ arns → Arn.shortName arn = Some s →
      (is_owner r s ↔ serves cl s).
Proof.
  intros Hans Hls. split; [intros; by eapply seq_run_returns|].
  destruct Hans as (Hlist & Hdescr & Hdefn).
  intros σ r o Hmain Hst arn s Harn Hs.
  destruct r as [out st]. simpl in Hst. subst st. split.
  - intros (f & img & S & Hf & HS & HsS). simpl in Hf. injection Hf as ->.
    destruct (report_facts _ _ _ _ Hmain)
      as (_ & (_ & Hdom & Hown & _) & Hd & Hsound & _).
    apply describeTasks_result in Hd as (Hcat & Hsrc & _).
    destruct (Hsound _ _ _ HS HsS) as (td & containers & cn & _ & Edef & Hcn & _ & Hin).
    destruct (taskDefToService (definitions f) !! td) as [S0|] eqn:ES0;
      [|by apply elem_of_empty in Hin].
    destruct (Hsrc _ _ _ ES0 Hin) as (b & tasks & task & t & Hb & Eb & Htask & Et & Etd & Hsvc).
    destruct (Hdescr b) as (tasks' & Eb' & Htasks). rewrite Eb in Eb'.
    injection Eb' as <-. apply Htasks in Htask as (t' & Ht' & ->).
    simpl in Et, Etd. injection Et as ->. injection Etd as <-.
    assert (t ∈ taskArns f) as Ht.
    { rewrite <- Hcat. apply elem_of_concat. by exists b. }
    apply Hdom in Ht as [o' Ho']. rewrite Ho' in Hsvc. simpl in Hsvc. subst o'.
    destruct (Hown _ _ Ho') as (_ & ts & Ets & Hts).
    destruct (Hlist s) as (ts' & Ets' & Hrun). rewrite Ets in Ets'.
    injection Ets' as <-. apply Hrun in Hts as [? ?].
    exists t. split_and!; try done.
    destruct (Hdefn (definition_of cl t)) as (containers' & Edef' & Hcont).
    rewrite Edef in Edef'. injection Edef' as <-.
    apply Hcont in Hcn as (img' & Himg' & _). intros Hnil.
    rewrite Hnil in Himg'. by apply elem_of_nil in Himg'.
  - intros (t & Hrun & Hsvc & Himgs).
    destruct (Hlist s) as (ts & Ets & Hts).
    assert (t ∈ ts) as Ht by (by apply Hts).
    assert (∀ s' ts', ListTasks (client env) s' = Some ts' → t ∈ ts' → s' = s)
      as Huniq.
    { intros s' ts' E' Ht'. destruct (Hlist s') as (ts'' & E'' & Hts').
      rewrite E' in E''. injection E'' as <-. apply Hts' in Ht' as [_ ?].
      congruence. }
    destruct o as [f|].
    + destruct (report_facts _ _ _ _ Hmain)
        as ((arns' & Hls' & Hnames) & (_ & _ & _ & Hlisted) & Hd & _ & _ & Hall & _).
      rewrite Hls in Hls'. injection Hls' as <-.
      assert (s ∈ serviceNames f) as Hname by (apply Hnames; eauto).
      destruct (Hlisted _ _ _ Hname Ets Ht) as [Hin Howner].
      specialize (Howner (λ s' ts' _, Huniq s' ts')).
      apply describeTasks_result in Hd as (Hcat & _ & Hrec & _).
      rewrite <- Hcat in Hin. apply elem_of_concat in Hin as (b & Hb & Htb).
      destruct (Hdescr b) as (tasks & Eb & Htasks).
      destruct (Hrec b tasks (mkTask (Some t) (Some (definition_of cl t))) t
                  (definition_of cl t)) as (Htd & S0 & ES0 & HsS0); try done.
      { apply Htasks. by exists t. }
      rewrite Howner in HsS0. simpl in HsS0.
      destruct (Hdefn (definition_of cl t)) as (containers & Edef & Hcont).
      destruct (images_of cl (definition_of cl t)) as [|img imgs] eqn:Eimgs; [done|].
      destruct (Hall _ _ (mkContainer (Some img)) Htd Edef)
        as (img' & S & Himg' & HS & Hsub).
      { apply Hcont. exists img. split; [by left|done]. }
      rewrite ES0 in Hsub. simpl in Hsub.
      exists f, img', S. split_and!; [done..|by apply Hsub].
    + exfalso. apply main_no_report in Hmain
        as [Hnil|(arns' & names & m & st1 & Hls' & Hn & H1 & Hpc & Hempty)].
      * rewrite Hls in Hnil. injection Hnil as ->. by apply elem_of_nil in Harn.
      * rewrite Hls in Hls'. injection Hls' as <-.
        assert (s ∈ names) as Hname.
        { eapply shortNames_elem; [by eapply deriveNames_names|]. eauto. }
        destruct (listTasksPool_returned _ _ _ _ H1 Hpc) as (_ & _ & _ & Hlisted).
        destruct (Hlisted _ _ _ Hname Ets Ht) as [Hin _].
        rewrite Hempty in Hin. by apply elem_of_nil in Hin.
Qed.

Lemma completeness_under_success_witness :
  (∃ out o, main Demo.env (seq_run Demo.env) = Some (mkResult out (Success o))) ∧
  ∃ r, main Demo.env (seq_run Demo.env) = Some r ∧
    serves Demo.cl "svc-a" ∧
    (is_owner r "svc-a" ↔ serves Demo.cl "svc-a").
Proof.
  destruct (completeness_under_success Demo.cl Demo.env
              ["arn:aws:ecs:r:1:service/prod/svc-a";
               "arn:aws:ecs:r:1:service/prod/svc-b"]) as [Hrun Hiff].
  - apply answers_client_of.
  - reflexivity.
  - split.
    + apply Hrun; [discriminate|reflexivity|].
      by intros [?|[?|?%elem_of_nil]%elem_of_cons]%elem_of_cons.
    + eexists. split; [vm_compute; reflexivity|]. split.
      * exists "t1". split_and!; [by left|reflexivity|discriminate].
      * eapply (Hiff (seq_run Demo.env)).
        -- vm_compute; reflexivity.
        -- reflexivity.
        -- by left.
        -- reflexivity.
Defined.


(** * Further properties of the code *)

(** ** [splitArn] *)

Section SplitFacts.
Import Arn.

Lemma str_app_assoc (p q r : string) : (p +:+ q) +:+ r = p +:+ (q +:+ r).
Proof. induction p as [|c p IH]; [done|]. rewrite !str_app_cons. by f_equal. Qed.

Lemma has_slash_app (p q : string) :
  has_slash (p +:+ q) = has_slash p || has_slash q.
Proof.
  induction p as [|c p IH]; [done|]. rewrite str_app_cons. simpl.
  by rewrite IH, orb_assoc.
Qed.

(** The scan loses no character: the finished segments, each with its
    separator, and the pending one make up the text. *)
Lemma scan_join (rest cur : string) :
  join_terminated (scan cur rest).1 +:+ (scan cur rest).2 = cur +:+ rest.
Proof.
  revert cur; induction rest as [|a r IH]; intros cur; simpl;
    [by rewrite str_app_empty_r|].
  destruct (Ascii.eqb a slash) eqn:Ea.
  - apply Ascii.eqb_eq in Ea as ->. specialize (IH "").
    destruct (scan "" r) as [l f]; simpl in *.
    change ("" +:+ r) with r in IH. by rewrite str_app_assoc, str_app_cons, IH.
  - rewrite IH. apply str_app_snoc_assoc.
Qed.

Lemma scan_slash_free (rest cur : string) :
  has_slash cur = false →
  Forall (λ s, has_slash s = false) (scan cur rest).1 ∧
  has_slash (scan cur rest).2 = false.
Proof.
  revert cur; induction rest as [|a r IH]; intros cur Hcur; simpl; [done|].
  destruct (Ascii.eqb a slash) eqn:Ea.
  - destruct (IH "" eq_refl) as [Hl Hf].
    destruct (scan "" r) as [l f]; simpl in *. split; [by constructor|done].
  - apply IH. rewrite has_slash_app, Hcur. simpl. by rewrite Ea.
Qed.

Lemma scan_pending_empty (rest cur : string) :
  (scan cur rest).2 = "" ↔
  (cur = "" ∧ rest = "") ∨ last_char rest = Some slash.
Proof.
  revert cur; induction rest as [|a r IH]; intros cur; simpl.
  - split; [by left|]. by intros [[? _]|?].
  - destruct (Ascii.eqb a slash) eqn:Ea.
    + apply Ascii.eqb_eq in Ea as ->. specialize (IH "").
      destruct (scan "" r) as [l f]; simpl in *. rewrite IH.
      destruct r as [|b r]; [split; [by right|by left]|].
      split; [intros [[_ ?]|?]; [done|by right]|intros [[_ ?]|?]; [done|by right]].
    + rewrite IH. destruct r as [|b r].
      * simpl. split; [intros [[H _]|?]; [|done]|intros [[_ ?]|[= ->]]; [done|]].
        -- by apply str_app_eq_empty in H as [_ ?].
        -- by rewrite Ascii.eqb_refl in Ea.
      * split; [intros [[_ ?]|?]; [done|by right]|intros [[_ ?]|?]; [done|by right]].
Qed.

Lemma scan_no_slash (s cur : string) :
  has_slash s = false → scan cur s = ([], cur +:+ s).
Proof.
  revert cur; induction s as [|a s IH]; intros cur H; simpl in *.
  - by rewrite str_app_empty_r.
  - apply orb_false_iff in H as [-> H]. rewrite IH by done.
    by rewrite str_app_snoc_assoc.
Qed.

Lemma scan_app_slash (p r cur : string) :
  scan cur (p +:+ String slash r) =
  ((scan cur p).1 ++ (scan cur p).2 :: (scan "" r).1, (scan "" r).2).
Proof.
  revert cur; induction p as [|a p IH]; intros cur.
  - change ("" +:+ String slash r) with (String slash r). simpl.
    by destruct (scan "" r).
  - rewrite str_app_cons. simpl. destruct (Ascii.eqb a slash).
    + rewrite (IH ""). by destruct (scan "" p).
    + apply IH.
Qed.

End SplitFacts.

(** X1: [splitArn] loses nothing but a final separator.  Its segments,
    each followed by ['/'], make up the identifier itself when the
    identifier is empty or ends in ['/'], and the identifier followed by
    ['/'] otherwise; and no segment holds a ['/']. *)
Theorem splitArn_join (arn : string) :
  join_terminated (Arn.splitArn arn) =
    (if decide (arn = "" ∨ last_char arn = Some Arn.slash) then arn
     else arn +:+ "/") ∧
  Forall (λ s, has_slash s = false) (Arn.splitArn arn).
Proof.
  rewrite splitArn_scan.
  pose proof (scan_join arn "") as Hjoin.
  pose proof (scan_pending_empty arn "") as Hempty.
  destruct (scan_slash_free arn "" eq_refl) as [Hl Hf].
  destruct (Arn.scan "" arn) as [l f]; simpl in *.
  change ("" +:+ arn) with arn in Hjoin. split.
  - destruct (decide (f = "")) as [->|Hne].
    + rewrite app_nil_r, str_app_empty_r in *.
      rewrite decide_True; [done|]. destruct Hempty as [[[_ ?]|?] _]; auto.
    + rewrite decide_False by (intros H; apply Hne, Hempty; tauto).
      rewrite <- Hjoin. clear. induction l as [|x l IH]; [reflexivity|].
      simpl. by rewrite IH, !str_app_assoc, !str_app_cons.
  - destruct (decide (f = "")); [by rewrite app_nil_r|].
    apply Forall_app. split; [done|by constructor].
Qed.

(** X2: the short name is what follows the last ['/'].  For a non-empty
    name [s] without ['/'], the identifiers [s], [p/s] and [p/s/] all
    have the short name [s], whatever the prefix [p]. *)
Theorem shortName_after_last_slash (p s : string) :
  s ≠ "" → has_slash s = false →
  Arn.shortName s = Some s ∧
  Arn.shortName (p +:+ "/" +:+ s) = Some s ∧
  Arn.shortName (p +:+ "/" +:+ s +:+ "/") = Some s.
Proof.
  intros Hne Hs.
  assert (Arn.scan "" s = ([], s)) as Es by (by rewrite scan_no_slash).
  assert (Arn.scan "" (s +:+ "/") = ([s], "")) as Es'.
  { change "/" with (String Arn.slash ""). rewrite scan_app_slash, Es. done. }
  split_and!.
  - rewrite shortName_scan, Es. cbn [fst snd]. by rewrite decide_False.
  - rewrite shortName_scan. change ("/" +:+ s) with (String Arn.slash s).
    rewrite scan_app_slash, Es. cbn [fst snd]. by rewrite decide_False.
  - rewrite shortName_scan. change ("/" +:+ s +:+ "/") with (String Arn.slash (s +:+ "/")).
    rewrite scan_app_slash, Es'. cbn [fst snd]. rewrite decide_True by done.
    rewrite (cons_middle _ _ [s]), app_assoc. apply last_snoc.
Qed.

Lemma shortName_after_last_slash_witness :
  Arn.shortName "web" = Some "web" ∧
  Arn.shortName ("arn:aws:ecs:us-east-1:1:service/prod" +:+ "/" +:+ "web") = Some "web" ∧
  Arn.shortName ("arn:aws:ecs:us-east-1:1:service/prod" +:+ "/" +:+ "web" +:+ "/") =
    Some "web".
Proof.
  apply (shortName_after_last_slash "arn:aws:ecs:us-east-1:1:service/prod" "web");
    [discriminate|reflexivity].
Defined.


(** ** Enumeration *)

Lemma listServices_acc (pages : list (option (list string))) (acc : list string) :
  listServices pages acc =
  if forallb (λ p : option (list string), match p with Some _ => true | None => false end) pages
  then Some (acc ++ concat (omap id pages)) else None.
Proof.
  revert acc; induction pages as [|[page|] pages IH]; intros acc; simpl.
  - by rewrite app_nil_r.
  - rewrite IH. destruct (forallb _ pages); [|done]. by rewrite app_assoc.
  - done.
Qed.

(** X3: the pages of the enumeration are accumulated in order, and the
    first page that fails is fatal: the pages before it are discarded, no
    later page is asked for, and the run ends in [log.Fatalf] having
    printed only its first line. *)
Theorem listServices_pages (pages pre post : list (option (list string))) :
  (Forall is_Some pages →
   listServices pages [] = Some (concat (omap id pages))) ∧
  (listServices (pre ++ None :: post) [] = None ∧
   ∀ env σ, cluster env ≠ "" → configLoads env = true →
     ListServicesPages (client env) = pre ++ None :: post →
     main env σ =
       Some (mkResult ["Fetching services in cluster '" +:+ cluster env +:+ "'..."]
               LogFatal)).
Proof.
  assert (listServices (pre ++ None :: post) [] = None) as Hnone.
  { rewrite listServices_acc, forallb_app. simpl. by rewrite andb_false_r. }
  split_and!; [|done|].
  - intros Hall. rewrite listServices_acc.
    assert (forallb (λ p : option (list string), match p with Some _ => true | None => false end) pages = true)
      as ->; [|done].
    apply forallb_forall. intros p Hp%list_elem_of_In.
    rewrite Forall_forall in Hall. by destruct (Hall p Hp) as [? ->].
  - intros env σ Hc Hcfg Hp. unfold main.
    by rewrite decide_False, Hcfg, Hp, Hnone.
Qed.

Lemma listServices_pages_witness :
  listServices [Some ["a"; "b"]; Some []; Some ["c"]] [] = Some ["a"; "b"; "c"] ∧
  listServices ([Some ["a"]] ++ None :: [Some ["b"]]) [] = None ∧
  main (mkEnv "prod" true
          (mkClient ([Some ["a"]] ++ None :: [Some ["b"]])
             (λ _, None) (λ _, None) (λ _, None)))
       (mkSched [] [] []) =
    Some (mkResult ["Fetching services in cluster 'prod'..."] LogFatal).
Proof.
  split; [|split].
  - apply (listServices_pages [Some ["a"; "b"]; Some []; Some ["c"]] [] []).
    repeat constructor; eauto.
  - apply (listServices_pages [] [Some ["a"]] [Some ["b"]]).
  - apply (proj2 (proj2 (listServices_pages [] [Some ["a"]] [Some ["b"]]))
             (mkEnv "prod" true
                (mkClient ([Some ["a"]] ++ None :: [Some ["b"]])
                   (λ _, None) (λ _, None) (λ _, None)))
             (mkSched [] [] []));
      [discriminate|reflexivity|reflexivity].
Defined.

(** ** Short names of the enumeration *)

Lemma names_loop_map (arns : list string) (i : nat) (names0 names : list string)
    (m0 m : gmap string string) (n arn : string) :
  names_loop arns i names0 m0 = Some (names, m) →
  m !! n = Some arn ↔
  (∃ k, arns !! k = Some arn ∧ Arn.shortName arn = Some n ∧
        ∀ j arn', k < j → arns !! j = Some arn' → Arn.shortName arn' ≠ Some n) ∨
  (m0 !! n = Some arn ∧
   ∀ j arn', arns !! j = Some arn' → Arn.shortName arn' ≠ Some n).
Proof.
  revert i names0 m0; induction arns as [|a arns IH]; intros i names0 m0 H;
    simpl in H.
  - simplify_eq. split.
    + intros Hm. right. split; [done|]. intros j arn' Hj. by rewrite lookup_nil in Hj.
    + intros [(k & Hk & _)|[? _]]; [by rewrite lookup_nil in Hk|done].
  - destruct (Arn.shortName a) as [name|] eqn:Ea; [|done].
    rewrite (IH _ _ _ H). clear IH H. split.
    + intros [(k & Hk & Hn & Hlast)|[Hm Hnone]].
      * left. exists (S k). split_and!; try done.
        intros [|j] arn' Hlt Hj; [lia|]. apply (Hlast j); [lia|done].
      * destruct (decide (name = n)) as [->|Hne].
        -- rewrite lookup_insert_eq in Hm. injection Hm as ->.
           left. exists 0. split_and!; try done.
           intros [|j] arn' Hlt Hj; [lia|]. by apply (Hnone j).
        -- rewrite lookup_insert_ne in Hm by done. right. split; [done|].
           intros [|j] arn' Hj; simpl in Hj; [|by apply (Hnone j)].
           injection Hj as <-. congruence.
    + intros [(k & Hk & Hn & Hlast)|[Hm Hnone]].
      * destruct k as [|k]; simpl in Hk.
        -- injection Hk as ->. right. rewrite Ea in Hn. injection Hn as ->.
           rewrite lookup_insert_eq. split; [done|].
           intros j arn' Hj. apply (Hlast (S j)); [lia|done].
        -- left. exists k. split_and!; try done.
           intros j arn' Hlt Hj. apply (Hlast (S j)); [lia|done].
      * right. assert (name ≠ n) as Hne.
        { intros ->. by apply (Hnone 0 a). }
        rewrite lookup_insert_ne by done. split; [done|].
        intros j arn' Hj. by apply (Hnone (S j)).
Qed.

(** X4: the loop over the enumeration is total except on an empty
    identifier; it keeps one short name per identifier, at the position
    of the identifier, and its name-to-identifier table keeps, for every
    short name, the last identifier that has it. *)
Theorem deriveNames_table (arns : list string) :
  (deriveNames arns = None ↔ "" ∈ arns) ∧
  ∀ names m, deriveNames arns = Some (names, m) →
    length names = length arns ∧
    (∀ i arn, arns !! i = Some arn →
       ∃ n, names !! i = Some n ∧ Arn.shortName arn = Some n) ∧
    (∀ n arn, m !! n = Some arn ↔
       ∃ k, arns !! k = Some arn ∧ Arn.shortName arn = Some n ∧
            ∀ j arn', k < j → arns !! j = Some arn' → Arn.shortName arn' ≠ Some n).
Proof.
  split; [apply names_loop_None|]. intros names m H.
  pose proof (deriveNames_names _ _ _ H) as Hall. split_and!.
  - symmetry. by eapply Forall2_length.
  - intros i arn Hi. destruct (Forall2_lookup_l _ _ _ _ _ Hall Hi) as (n & ? & ?).
    by exists n.
  - intros n arn. unfold deriveNames in H. rewrite (names_loop_map _ _ _ _ _ _ n arn H).
    split; [intros [?|[Hm _]]; [done|by rewrite lookup_empty in Hm]|by left].
Qed.

Lemma deriveNames_table_witness :
  ∃ names m,
    deriveNames ["c1/web"; "c2/api"; "c3/web"] = Some (names, m) ∧
    names = ["web"; "api"; "web"] ∧
    (m !! "web" = Some "c3/web" ↔
       ∃ k, ["c1/web"; "c2/api"; "c3/web"] !! k = Some "c3/web" ∧
            Arn.shortName "c3/web" = Some "web" ∧
            ∀ j arn', k < j → ["c1/web"; "c2/api"; "c3/web"] !! j = Some arn' →
                      Arn.shortName arn' ≠ Some "web").
Proof.
  eexists _, _. split; [vm_compute; reflexivity|]. split; [reflexivity|].
  eapply (proj2 (deriveNames_table ["c1/web"; "c2/api"; "c3/web"])).
  vm_compute; reflexivity.
Defined.


(** ** The reverse index of the first pool *)

Lemma addTasks_fold_last (tr : list ListOp) (s : list string * gmap string string)
    (t o : string) :
  (foldl (λ s op, addTasks op s) s tr).2 !! t = Some o ↔
  (∃ l1 ts l2, tr = l1 ++ AddTasks o ts :: l2 ∧ t ∈ ts ∧
               ∀ op, op ∈ l2 → t ∉ op_tasks op) ∨
  (s.2 !! t = Some o ∧ ∀ op, op ∈ tr → t ∉ op_tasks op).
Proof.
  induction tr as [|[svc ts] tr IH] using rev_ind.
  - simpl. split.
    + intros H. right. split; [done|]. by intros op ?%elem_of_nil.
    + intros [(l1 & ts & l2 & E & _)|[? _]]; [by destruct l1|done].
  - rewrite foldl_app. simpl. rewrite foldl_insert_lookup.
    destruct (decide (t ∈ ts)) as [Hin|Hnin].
    + split.
      * intros [= <-]. left. exists tr, ts, []. split_and!; try done.
        by intros op ?%elem_of_nil.
      * intros [(l1 & ts' & l2 & E & Ht & Hlast)|[_ Hnone]].
        -- destruct l2 as [|op l2 _] using rev_ind.
           ++ apply app_inj_tail in E as [_ E]. by simplify_eq.
           ++ rewrite app_comm_cons, app_assoc in E.
              apply app_inj_tail in E as [_ <-].
              destruct (Hlast (AddTasks svc ts)); [|done].
              apply elem_of_app. right. by left.
        -- destruct (Hnone (AddTasks svc ts)); [|done].
           apply elem_of_app. right. by left.
    + rewrite IH. clear IH. split.
      * intros [(l1 & ts' & l2 & -> & Ht & Hlast)|[Hs Hnone]].
        -- left. exists l1, ts', (l2 ++ [AddTasks svc ts]).
           rewrite <- app_assoc. split_and!; try done.
           intros op [?|Hop%list_elem_of_singleton]%elem_of_app; [by apply Hlast|by subst].
        -- right. split; [done|].
           intros op [?|Hop%list_elem_of_singleton]%elem_of_app; [by apply Hnone|by subst].
      * intros [(l1 & ts' & l2 & E & Ht & Hlast)|[Hs Hnone]].
        -- destruct l2 as [|op l2 _] using rev_ind.
           ++ apply app_inj_tail in E as [_ E]. by simplify_eq.
           ++ rewrite app_comm_cons, app_assoc in E.
              apply app_inj_tail in E as [-> <-].
              left. exists l1, ts', l2. split_and!; try done.
              intros op' Hop. apply Hlast, elem_of_app. by left.
        -- right. split; [done|]. intros op Hop. apply Hnone, elem_of_app. by left.
Qed.

(** X5: at every moment of every interleaving of the first pool, the list
    of tasks is the listings written so far, in the order of the writes;
    every write is the successful listing of an enumerated name; and the
    reverse index gives for a task the service of the last write that
    lists it. *)
Theorem taskToService_last_writer (c : Client) (names : list string)
    (cs : list Pool.Choice)
    (st : Pool.State string ListOp (list string * gmap string string)) :
  listTasksPool c names cs = Some st →
  (Pool.shared st).1 = concat (map op_tasks (Pool.trace st)) ∧
  (∀ op, op ∈ Pool.trace st →
     ∃ s ts, op = AddTasks s ts ∧ s ∈ names ∧ ListTasks c s = Some ts) ∧
  ∀ t s, (Pool.shared st).2 !! t = Some s ↔
    ∃ l1 ts l2, Pool.trace st = l1 ++ AddTasks s ts :: l2 ∧ t ∈ ts ∧
                ∀ op, op ∈ l2 → t ∉ op_tasks op.
Proof.
  intros Hrun. unfold listTasksPool in Hrun.
  destruct (Inv_reach _ _ _ _ _ _ Hrun) as [_ _ _ _ _ Hsh Htr _].
  rewrite Hsh. split_and!.
  - by rewrite addTasks_fold_tasks.
  - intros op Hop.
    assert (op ∈ concat (map (λ x, Pool.crits (listTasks_prog c x))
                           (take (length (Pool.workers st)) names))) as Hin.
    { rewrite <- Htr. apply elem_of_app. by left. }
    apply listTasks_crits in Hin as (s & ts & Hs & E & ->).
    exists s, ts. split_and!; try done.
    apply elem_of_take in Hs as (i & Hi & _). by eapply list_elem_of_lookup_2.
  - intros t s. rewrite addTasks_fold_last. split; [|by left].
    intros [?|[Hm _]]; [done|]. simpl in Hm. by rewrite lookup_empty in Hm.
Qed.

Lemma taskToService_last_writer_witness :
  ∃ st, listTasksPool (mkClient [] (λ _, Some ["t1"]) (λ _, None) (λ _, None))
          ["a"; "b"] Demo.overlap = Some st ∧
    Pool.trace st = [AddTasks "b" ["t1"]; AddTasks "a" ["t1"]] ∧
    (Pool.shared st).1 = concat (map op_tasks (Pool.trace st)) ∧
    ((Pool.shared st).2 !! "t1" = Some "a" ↔
     ∃ l1 ts l2, Pool.trace st = l1 ++ AddTasks "a" ts :: l2 ∧ "t1" ∈ ts ∧
                 ∀ op, op ∈ l2 → "t1" ∉ op_tasks op).
Proof.
  eexists. split; [vm_compute; reflexivity|]. split; [reflexivity|].
  assert (listTasksPool (mkClient [] (λ _, Some ["t1"]) (λ _, None) (λ _, None))
            ["a"; "b"] Demo.overlap = Some _) as Hrun by (vm_compute; reflexivity).
  pose proof (taskToService_last_writer _ _ _ _ Hrun) as H.
  exact (conj (proj1 H) (proj2 (proj2 H) "t1" "a")).
Defined.

(** X14: two interleavings of the first pool that run to the return of
    [wg.Wait()] gather the same tasks, up to their order, and index the
    same tasks; their reverse indexes can differ only on a task that
    two distinct services list. *)
Theorem first_pool_schedules (c : Client) (names : list string)
    (cs cs' : list Pool.Choice)
    (st st' : Pool.State string ListOp (list string * gmap string string)) :
  listTasksPool c names cs = Some st → Pool.pc st = Pool.Returned →
  listTasksPool c names cs' = Some st' → Pool.pc st' = Pool.Returned →
  (Pool.shared st).1 ≡ₚ (Pool.shared st').1 ∧
  (∀ t, is_Some ((Pool.shared st).2 !! t) ↔ is_Some ((Pool.shared st').2 !! t)) ∧
  ∀ t, (Pool.shared st).2 !! t ≠ (Pool.shared st').2 !! t →
    ∃ s s' ts ts', s ≠ s' ∧ s ∈ names ∧ s' ∈ names ∧
      ListTasks c s = Some ts ∧ ListTasks c s' = Some ts' ∧ t ∈ ts ∧ t ∈ ts'.
Proof.
  intros Hrun Hret Hrun' Hret'.
  destruct (listTasksPool_returned _ _ _ _ Hrun Hret) as (Hperm & Hdom & Hown & _).
  destruct (listTasksPool_returned _ _ _ _ Hrun' Hret') as (Hperm' & Hdom' & Hown' & _).
  assert (∀ t, is_Some ((Pool.shared st).2 !! t) ↔
               is_Some ((Pool.shared st').2 !! t)) as Hsame.
  { intros t. by rewrite <- Hdom, <- Hdom', Hperm, Hperm'. }
  split_and!; [by rewrite Hperm, Hperm'|done|].
  intros t Hne.
  destruct ((Pool.shared st).2 !! t) as [s|] eqn:E; cycle 1.
  { destruct ((Pool.shared st').2 !! t) as [s'|] eqn:E'; [|done].
    destruct (proj2 (Hsame t)) as [? ?]; [by rewrite E'|]. congruence. }
  destruct (proj1 (Hsame t)) as [s' E']; [by rewrite E|].
  rewrite E' in Hne.
  destruct (Hown _ _ E) as (? & ts & ? & ?).
  destruct (Hown' _ _ E') as (? & ts' & ? & ?).
  exists s, s', ts, ts'. split_and!; try done. congruence.
Qed.

Lemma first_pool_schedules_witness :
  ∃ st st',
    listTasksPool (mkClient [] (λ _, Some ["t1"]) (λ _, None) (λ _, None))
      ["a"; "b"] Demo.overlap = Some st ∧
    listTasksPool (mkClient [] (λ _, Some ["t1"]) (λ _, None) (λ _, None))
      ["a"; "b"]
      (Pool.seq_sched
         (listTasks_prog (mkClient [] (λ _, Some ["t1"]) (λ _, None) (λ _, None)))
         ["a"; "b"]) = Some st' ∧
    (Pool.shared st).2 !! "t1" = Some "a" ∧
    (Pool.shared st').2 !! "t1" = Some "b" ∧
    (Pool.shared st).1 ≡ₚ (Pool.shared st').1.
Proof.
  eexists _, _. split; [vm_compute; reflexivity|].
  split; [vm_compute; reflexivity|].
  split; [vm_compute; reflexivity|]. split; [vm_compute; reflexivity|].
  eapply (first_pool_schedules
            (mkClient [] (λ _, Some ["t1"]) (λ _, None) (λ _, None)) ["a"; "b"]
            Demo.overlap
            (Pool.seq_sched
               (listTasks_prog (mkClient [] (λ _, Some ["t1"]) (λ _, None) (λ _, None)))
               ["a"; "b"]));
    [vm_compute; reflexivity|reflexivity|vm_compute; reflexivity|reflexivity].
Defined.


(** ** The description stage *)

Section DescribeMore.
Variable c : Client.
Variable t2s : gmap string string.

Local Abbreviation ok b := (is_Some (DescribeTasks c b)).



Lemma record_tasks_None (tasks : list Task)
    (st : gset string * gmap string (gset string)) :
  record_tasks t2s tasks st = None ↔
  ∃ task, task ∈ tasks ∧ (TaskArn task = None ∨ TaskDefinitionArn task = None).
Proof.
  revert st; induction tasks as [|task tasks IH]; intros st; simpl.
  - split; [done|]. by intros (task & ?%elem_of_nil & _).
  - destruct (TaskDefinitionArn task) as [td|] eqn:Etd.
    + destruct (TaskArn task) as [t|] eqn:Et.
      * rewrite IH. split.
        -- intros (task' & ? & ?). exists task'. split; [by right|done].
        -- intros (task' & [->|?]%elem_of_cons & Hnil).
           ++ rewrite Et, Etd in Hnil. by destruct Hnil.
           ++ by exists task'.
      * split; [|done]. intros _. exists task. split; [by left|by left].
    + split; [|done]. intros _. exists task. split; [by left|by right].
Qed.

Lemma describe_loop_None (taskArns : list string) (n i : nat) (st : DescState) :
  length taskArns - i ≤ n * 100 →
  describe_loop c t2s taskArns n i st = None ↔
  ∃ k tasks task, i + k * 100 < length taskArns ∧
    DescribeTasks c (take 100 (drop (i + k * 100) taskArns)) = Some tasks ∧
    task ∈ tasks ∧ (TaskArn task = None ∨ TaskDefinitionArn task = None).
Proof.
  revert i st; induction n as [|n IH]; intros i st Hn; simpl.
  - split; [done|]. intros (k & ? & ? & ? & _). lia.
  - case_decide as Hi; cycle 1.
    { split; [done|]. intros (k & ? & ? & ? & _). lia. }
    assert ((if decide (length taskArns < i + batchSize) then length taskArns
             else i + batchSize) - i = 100 ∨
            (if decide (length taskArns < i + batchSize) then length taskArns
             else i + batchSize) - i = length taskArns - i ∧
            length taskArns - i ≤ 100) as Hend.
    { unfold batchSize. case_decide; [right|left]; lia. }
    assert (take ((if decide (length taskArns < i + batchSize) then length taskArns
                   else i + batchSize) - i) (drop i taskArns) =
            take 100 (drop i taskArns)) as ->.
    { destruct Hend as [->|[-> Hle]]; [done|].
      rewrite !take_ge; [done|rewrite length_drop; lia..]. }
    assert (∀ st',
      describe_loop c t2s taskArns n (i + batchSize) st' = None ↔
      ∃ k tasks task, i + S k * 100 < length taskArns ∧
        DescribeTasks c (take 100 (drop (i + S k * 100) taskArns)) = Some tasks ∧
        task ∈ tasks ∧ (TaskArn task = None ∨ TaskDefinitionArn task = None))
      as Hrest.
    { intros st'. rewrite IH by (unfold batchSize; lia). unfold batchSize.
      split; intros (k & tasks & task & Hk & Hd & Ht); exists k, tasks, task;
        (replace (i + S k * 100) with (i + 100 + k * 100) in * by lia ||
         replace (i + 100 + k * 100) with (i + S k * 100) in * by lia); done. }
    assert (i + 0 * 100 = i) as H0 by lia.
    destruct (DescribeTasks c (take 100 (drop i taskArns))) as [tasks|] eqn:Eb.
    + destruct (record_tasks t2s tasks (taskDefArns st, taskDefToService st))
        as [[defs owners]|] eqn:Er.
      * rewrite Hrest. split.
        -- intros (k & ?). by exists (S k).
        -- intros ([|k] & tasks' & task & Hk & Hd & Ht & Hnil); [|by eexists k, _, _].
           rewrite H0, Eb in Hd. simplify_eq.
           assert (record_tasks t2s tasks' (taskDefArns st, taskDefToService st) = None)
             as Hcon by (apply record_tasks_None; eauto).
           by rewrite Er in Hcon.
      * split; [|done]. intros _.
        apply record_tasks_None in Er as (task & Ht & Hnil).
        exists 0, tasks, task. by rewrite H0.
    + rewrite Hrest. split.
      * intros (k & ?). by exists (S k).
      * intros ([|k] & tasks' & task & Hk & Hd & Ht & Hnil); [|by eexists k, _, _].
        by rewrite H0, Eb in Hd.
Qed.

End DescribeMore.



(** X7: after the description stage the set of definitions is the set
    of keys of the ownership map; a definition is in it exactly when a
    successful response holds a task that runs it; a service is among
    the owners of a definition exactly when the reverse index gives it
    for such a task; and a described task that the reverse index does
    not know makes the empty name an owner. *)
Theorem describeTasks_owners (c : Client) (t2s : gmap string string)
    (taskArns : list string) (d : DescState) :
  describeTasks c t2s taskArns = Some d →
  (∀ td, td ∈ taskDefArns d ↔ is_Some (taskDefToService d !! td)) ∧
  (∀ td, td ∈ taskDefArns d ↔
     ∃ b tasks task, b ∈ requests d ∧ DescribeTasks c b = Some tasks ∧
       task ∈ tasks ∧ TaskDefinitionArn task = Some td) ∧
  (∀ td s, (∃ S, taskDefToService d !! td = Some S ∧ s ∈ S) ↔
     ∃ b tasks task t, b ∈ requests d ∧ DescribeTasks c b = Some tasks ∧
       task ∈ tasks ∧ TaskArn task = Some t ∧ TaskDefinitionArn task = Some td ∧
       s = default "" (t2s !! t)) ∧
  (∀ b tasks task t td, b ∈ requests d → DescribeTasks c b = Some tasks →
     task ∈ tasks → TaskArn task = Some t → TaskDefinitionArn task = Some td →
     t2s !! t = None →
     ∃ S, taskDefToService d !! td = Some S ∧ "" ∈ S).
Proof.
  intros (_ & Hsound & Hcomplete & Hdom & Hne & Hids)%describeTasks_result.
  split_and!; [done| | |].
  - intros td. split.
    + intros [S HS]%Hdom.
      assert (∃ s, s ∈ S) as [s Hs].
      { apply set_choose_L. by eapply Hne. }
      destruct (Hsound _ _ _ HS Hs) as (b & tasks & task & t & ? & ? & ? & ? & ? & _).
      by exists b, tasks, task.
    + intros (b & tasks & task & Hb & Eb & Ht & Etd).
      destruct (Hids _ _ _ Hb Eb Ht) as [[t td'] E]. unfold task_ids in E.
      destruct (TaskArn task) as [t1|] eqn:Et; [|done].
      by destruct (Hcomplete _ _ _ _ _ Hb Eb Ht Et Etd) as [? _].
  - intros td s. split.
    + intros (S & HS & Hs). by eapply Hsound.
    + intros (b & tasks & task & t & Hb & Eb & Ht & Et & Etd & ->).
      by destruct (Hcomplete _ _ _ _ _ Hb Eb Ht Et Etd) as [_ ?].
  - intros b tasks task t td Hb Eb Ht Et Etd Hnone.
    destruct (Hcomplete _ _ _ _ _ Hb Eb Ht Et Etd) as [_ (S & HS & Hin)].
    rewrite Hnone in Hin. by exists S.
Qed.

Lemma describeTasks_owners_witness :
  ∃ d, describeTasks (client Demo.env_odd) {["t1" := "svc-a"]} ["t1"] = Some d ∧
    ∃ S, taskDefToService d !! "def-1" = Some S ∧ "" ∈ S.
Proof.
  eexists. split; [vm_compute; reflexivity|].
  eapply (proj2 (proj2 (proj2
            (describeTasks_owners (client Demo.env_odd) {["t1" := "svc-a"]} ["t1"] _ _)))
            ["t1"] [mkTask (Some "t9") (Some "def-1")] _ "t9" "def-1").
  - vm_compute. by left.
  - reflexivity.
  - by left.
  - reflexivity.
  - reflexivity.
  - reflexivity.
  Unshelve. vm_compute; reflexivity.
Defined.

(** X8: the description stage stops on a nil pointer exactly when the
    response to one of its batches, the hundred identifiers from a
    multiple of one hundred on, holds a task without its identifier or
    without the identifier of its definition. *)
Theorem describeTasks_panics (c : Client) (t2s : gmap string string)
    (taskArns : list string) :
  describeTasks c t2s taskArns = None ↔
  ∃ k tasks task, k * 100 < length taskArns ∧
    DescribeTasks c (take 100 (drop (k * 100) taskArns)) = Some tasks ∧
    task ∈ tasks ∧ (TaskArn task = None ∨ TaskDefinitionArn task = None).
Proof.
  unfold describeTasks. rewrite describe_loop_None by lia. done.
Qed.


(** ** The merge of the second pool *)

Lemma mergeImage_idem (a : ImageOp) (m : gmap string (gset string)) :
  mergeImage a (mergeImage a m) = mergeImage a m.
Proof.
  destruct a as [i S]. apply map_eq. intros img. rewrite !mergeImage_lookup.
  destruct (decide (i = img)) as [->|]; [|done].
  rewrite (decide_True (P := img = img)) by done. simpl. f_equal.
  rewrite (assoc_L (∪)). by rewrite (idemp_L (∪)).
Qed.

Lemma mergeImage_comm (a b : ImageOp) (m : gmap string (gset string)) :
  mergeImage a (mergeImage b m) = mergeImage b (mergeImage a m).
Proof.
  destruct a as [i S], b as [j T]. apply map_eq. intros img.
  rewrite !mergeImage_lookup.
  destruct (decide (i = j)) as [->|Hij].
  - rewrite !(decide_True (P := j = j)) by done. destruct (decide (j = img)); [|done].
    simpl. f_equal. rewrite !(assoc_L (∪)). f_equal. apply (comm_L (∪)).
  - rewrite (decide_False (P := j = i)) by done.
    destruct (decide (i = img)) as [->|]; [|done].
    by rewrite (decide_False (P := j = img)) by done.
Qed.

Lemma foldl_mergeImage_perm (tr tr' : list ImageOp) :
  tr ≡ₚ tr' → ∀ m,
  foldl (λ s op, mergeImage op s) m tr = foldl (λ s op, mergeImage op s) m tr'.
Proof.
  induction 1 as [|op l l' _ IH|a b l|l1 l2 l3 _ IH1 _ IH2]; intros m; simpl.
  - done.
  - apply IH.
  - by rewrite mergeImage_comm.
  - by rewrite IH1.
Qed.

(** X9: the write of the second pool under its mutex is idempotent, and
    two such writes commute. *)
Theorem mergeImage_idempotent_commutative (a b : ImageOp)
    (m : gmap string (gset string)) :
  mergeImage a (mergeImage a m) = mergeImage a m ∧
  mergeImage a (mergeImage b m) = mergeImage b (mergeImage a m).
Proof. split; [apply mergeImage_idem|apply mergeImage_comm]. Qed.

Lemma describeDefsPool_perm (c : Client) (owners : gmap string (gset string))
    (defs defs' : list string) (cs cs' : list Pool.Choice)
    (st st' : Pool.State string ImageOp (gmap string (gset string))) :
  defs ≡ₚ defs' →
  describeDefsPool c owners defs cs = Some st →
  describeDefsPool c owners defs' cs' = Some st' →
  (Pool.crashed st = true → Pool.pc st' = Pool.Returned → False) ∧
  (Pool.pc st = Pool.Returned → Pool.pc st' = Pool.Returned →
   Pool.shared st = Pool.shared st').
Proof.
  intros Hperm Hrun Hrun'. unfold describeDefsPool in *. split.
  - intros Hcr Hret.
    destruct (crashed_panics _ _ _ _ _ _ Hrun Hcr) as (td & Htd & Hp).
    destruct (returned_shared _ _ _ _ _ _ Hrun' Hret) as (_ & _ & Hall).
    rewrite Forall_forall in Hall. rewrite Hperm in Htd.
    rewrite (Hall _ Htd) in Hp. done.
  - intros Hret Hret'.
    destruct (returned_shared _ _ _ _ _ _ Hrun Hret) as (Htr & -> & _).
    destruct (returned_shared _ _ _ _ _ _ Hrun' Hret') as (Htr' & -> & _).
    apply foldl_mergeImage_perm. rewrite Htr, Htr'.
    rewrite <- !flat_map_concat_map. by apply Permutation_flat_map.
Qed.

(** X10: what a run ends in does not depend on the interleaving of the
    goroutines of the second pool, nor on the order in which the range
    over the set of definitions yields them. *)
Theorem second_pool_order_irrelevant (env : Env) (σ σ' : Sched) (r r' : Result) :
  sched1 σ = sched1 σ' →
  main env σ = Some r → main env σ' = Some r' → r = r'.
Proof.
  intros Hs H H'. unfold main in *. rewrite <- Hs in H'.
  destruct (decide (cluster env = "")); [congruence|].
  destruct (negb (configLoads env)); [congruence|].
  destruct (listServices _ _) as [arns|]; [|congruence].
  destruct (decide (length arns = 0)); [congruence|].
  destruct (deriveNames arns) as [[names m]|]; [|congruence].
  destruct (pool_end (listTasksPool _ _ _)) as [[|[tasks owner] bar]|];
    [congruence| |done].
  destruct (decide (length tasks = 0)); [congruence|].
  destruct (describeTasks _ _ _) as [d|]; [|congruence].
  case_bool_decide as Hp; [|done]. case_bool_decide as Hp'; [|done].
  assert (defOrder σ ≡ₚ defOrder σ') as Hperm by (by rewrite Hp, Hp').
  destruct (describeDefsPool _ _ (defOrder σ) _) as [st|] eqn:Hrun; [|done].
  destruct (describeDefsPool _ _ (defOrder σ') _) as [st'|] eqn:Hrun'; [|done].
  destruct (describeDefsPool_perm _ _ _ _ _ _ _ _ Hperm Hrun Hrun') as [Hx Heq].
  symmetry in Hperm.
  destruct (describeDefsPool_perm _ _ _ _ _ _ _ _ Hperm Hrun' Hrun) as [Hx' _].
  unfold pool_end in *.
  destruct (Pool.crashed st) eqn:Hcr, (Pool.crashed st') eqn:Hcr'.
  - congruence.
  - destruct (Pool.pc st'); [done|]. by destruct Hx.
  - destruct (Pool.pc st); [done|]. by destruct Hx'.
  - destruct (Pool.pc st); [done|]. destruct (Pool.pc st'); [done|].
    rewrite Heq in H by done. congruence.
Qed.

Lemma second_pool_order_irrelevant_witness :
  ∃ r r', main Demo.env_two Demo.overlapped = Some r ∧
          main Demo.env_two Demo.half_overlapped = Some r' ∧ r = r'.
Proof.
  eexists _, _. split; [vm_compute; reflexivity|].
  split; [vm_compute; reflexivity|].
  eapply (second_pool_order_irrelevant Demo.env_two Demo.overlapped
            Demo.half_overlapped);
    [reflexivity|vm_compute; reflexivity|vm_compute; reflexivity].
Defined.


(** ** The report against the cluster *)

Lemma report_entries (cl : Cluster) (env : Env) (σ : Sched) (out : list string)
    (f : Final) :
  answers cl (client env) →
  main env σ = Some (mkResult out (Success (Some f))) →
  ∀ img s,
    (∃ S, imageToServices f !! img = Some S ∧ s ∈ S) ↔
    s ∈ serviceNames f ∧
    ∃ t, t ∈ running cl ∧ service_of cl t = s ∧
         img ∈ images_of cl (definition_of cl t).
Proof.
  intros (Hlist & Hdescr & Hdefn) Hmain img s.
  destruct (report_facts _ _ _ _ Hmain)
    as (_ & (_ & Hdom & Hown & Hlisted) & Hd & Hsound & _ & Hall & _).
  apply describeTasks_result in Hd as (Hcat & Hsrc & Hrec & _).
  split.
  - intros (S & HS & HsS).
    destruct (Hsound _ _ _ HS HsS) as (td & containers & cn & _ & Edef & Hcn & Eimg & Hin).
    destruct (taskDefToService (definitions f) !! td) as [S0|] eqn:ES0;
      [|by apply elem_of_empty in Hin].
    destruct (Hsrc _ _ _ ES0 Hin)
      as (b & tasks & task & t & Hb & Eb & Htask & Et & Etd & Hsvc).
    destruct (Hdescr b) as (tasks' & Eb' & Htasks). rewrite Eb in Eb'.
    injection Eb' as <-. apply Htasks in Htask as (t' & Ht' & ->).
    simpl in Et, Etd. injection Et as ->. injection Etd as <-.
    assert (t ∈ taskArns f) as Ht.
    { rewrite <- Hcat. apply elem_of_concat. by exists b. }
    apply Hdom in Ht as [o' Ho']. rewrite Ho' in Hsvc. simpl in Hsvc. subst o'.
    destruct (Hown _ _ Ho') as (Hname & ts & Ets & Hts).
    destruct (Hlist s) as (ts' & Ets' & Hrun). rewrite Ets in Ets'.
    injection Ets' as <-. apply Hrun in Hts as [? ?].
    split; [done|]. exists t. split_and!; try done.
    destruct (Hdefn (definition_of cl t)) as (containers' & Edef' & Hcont).
    rewrite Edef in Edef'. injection Edef' as <-.
    apply Hcont in Hcn as (img' & Himg' & ->). simpl in Eimg. by injection Eimg as <-.
  - intros (Hname & t & Hrun & Hsvc & Himg).
    destruct (Hlist s) as (ts & Ets & Hts).
    assert (t ∈ ts) as Ht by (by apply Hts).
    destruct (Hlisted _ _ _ Hname Ets Ht) as [Hin Howner].
    assert (taskToService f !! t = Some s) as Ho.
    { apply Howner. intros s' ts' _ E' Ht'. destruct (Hlist s') as (ts'' & E'' & Hts').
      rewrite E' in E''. injection E'' as <-. apply Hts' in Ht' as [_ ?].
      congruence. }
    rewrite <- Hcat in Hin. apply elem_of_concat in Hin as (b & Hb & Htb).
    destruct (Hdescr b) as (tasks & Eb & Htasks).
    destruct (Hrec b tasks (mkTask (Some t) (Some (definition_of cl t))) t
                (definition_of cl t)) as (Htd & S0 & ES0 & HsS0); try done.
    { apply Htasks. by exists t. }
    rewrite Ho in HsS0. simpl in HsS0.
    destruct (Hdefn (definition_of cl t)) as (containers & Edef & Hcont).
    destruct (Hall _ _ (mkContainer (Some img)) Htd Edef)
      as (img' & S & Himg' & HS & Hsub).
    { apply Hcont. by exists img. }
    simpl in Himg'. injection Himg' as <-.
    rewrite ES0 in Hsub. simpl in Hsub. exists S. split; [done|]. by apply Hsub.
Qed.

Lemma report_inhabited (env : Env) (σ : Sched) (out : list string) (f : Final)
    (img : string) (S : gset string) :
  main env σ = Some (mkResult out (Success (Some f))) →
  imageToServices f !! img = Some S → ∃ s, s ∈ S.
Proof.
  intros Hmain HS. destruct (report_facts _ _ _ _ Hmain)
    as (_ & _ & Hd & _ & Hdom & _ & _).
  apply describeTasks_result in Hd as (_ & _ & _ & Hdefs & Hne & _).
  destruct (Hdom img) as (td & _ & _ & Htd & _ & _ & _ & S' & HS' & Hsub);
    [by rewrite HS|].
  rewrite HS in HS'. injection HS' as <-.
  apply Hdefs in Htd as [S0 HS0]. rewrite HS0 in Hsub. simpl in Hsub.
  destruct (set_choose_L S0) as [s Hs]; [by eapply Hne|].
  exists s. by apply Hsub.
Qed.

Lemma same_entries (m m' : gmap string (gset string)) :
  (∀ img S, m !! img = Some S → ∃ s, s ∈ S) →
  (∀ img S, m' !! img = Some S → ∃ s, s ∈ S) →
  (∀ img s, (∃ S, m !! img = Some S ∧ s ∈ S) ↔ (∃ S, m' !! img = Some S ∧ s ∈ S)) →
  m = m'.
Proof.
  intros Hne Hne' Hiff. apply map_eq. intros img.
  destruct (m !! img) as [S|] eqn:E, (m' !! img) as [S'|] eqn:E'.
  - f_equal. apply set_eq. intros s. split; intros Hs.
    + destruct (proj1 (Hiff img s)) as (S2 & E2 & ?); [eauto|]. congruence.
    + destruct (proj2 (Hiff img s)) as (S2 & E2 & ?); [eauto|]. congruence.
  - destruct (Hne img S E) as [s Hs].
    destruct (proj1 (Hiff img s)) as (S2 & E2 & _); [eauto|]. congruence.
  - destruct (Hne' img S' E') as [s Hs].
    destruct (proj2 (Hiff img s)) as (S2 & E2 & _); [eauto|]. congruence.
  - done.
Qed.

Lemma containers_prog_panics_inv (services : gset string)
    (containers : list ContainerDefinition) :
  Pool.panics (containers_prog services containers) = true →
  ∃ cn, cn ∈ containers ∧ Image cn = None.
Proof.
  induction containers as [|cn containers IH]; simpl; [done|].
  destruct (Image cn) as [img|] eqn:E.
  - simpl. intros (cn' & ? & ?)%IH. exists cn'. split; [by right|done].
  - intros _. exists cn. split; [by left|done].
Qed.

Lemma describeDefsPool_crash (c : Client) (owners : gmap string (gset string))
    (defs : list string) (cs : list Pool.Choice)
    (st : Pool.State string ImageOp (gmap string (gset string))) :
  describeDefsPool c owners defs cs = Some st → Pool.crashed st = true →
  ∃ td, td ∈ defs ∧
    (DescribeTaskDefinition c td = Some None ∨
     ∃ containers cn, DescribeTaskDefinition c td = Some (Some containers) ∧
       cn ∈ containers ∧ Image cn = None).
Proof.
  intros Hrun Hcr. unfold describeDefsPool in Hrun.
  destruct (crashed_panics _ _ _ _ _ _ Hrun Hcr) as (td & Htd & Hp).
  exists td. split; [done|]. unfold describeDef_prog in Hp.
  destruct (DescribeTaskDefinition c td) as [[containers|]|]; [|by left|done].
  right. apply containers_prog_panics_inv in Hp as (cn & ? & ?).
  by exists containers, cn.
Qed.

(** X11: when every call succeeds and tells the state of the cluster,
    the report of any run lists a service under an image exactly when
    the service is one of the enumeration and has a running task whose
    definition declares the image. *)
Theorem report_exact (cl : Cluster) (env : Env) (σ : Sched) (out : list string)
    (f : Final) :
  answers cl (client env) →
  main env σ = Some (mkResult out (Success (Some f))) →
  ∀ img s,
    (∃ S, imageToServices f !! img = Some S ∧ s ∈ S) ↔
    s ∈ serviceNames f ∧
    ∃ t, t ∈ running cl ∧ service_of cl t = s ∧
         img ∈ images_of cl (definition_of cl t).
Proof. apply report_entries. Qed.

Lemma report_exact_witness :
  ∃ out f,
    main Demo.env (seq_run Demo.env) = Some (mkResult out (Success (Some f))) ∧
    ((∃ S, imageToServices f !! "repo/sidecar:1" = Some S ∧ "svc-b" ∈ S) ↔
     "svc-b" ∈ serviceNames f ∧
     ∃ t, t ∈ running Demo.cl ∧ service_of Demo.cl t = "svc-b" ∧
          "repo/sidecar:1" ∈ images_of Demo.cl (definition_of Demo.cl t)).
Proof.
  eexists _, _. split; [vm_compute; reflexivity|].
  eapply (report_exact Demo.cl Demo.env (seq_run Demo.env));
    [apply answers_client_of|vm_compute; reflexivity].
Defined.

(** X12: when every call succeeds and tells the state of the cluster,
    what a run prints, how it ends and the entries of its report do not
    depend on the schedule. *)
Theorem report_schedule_independent (cl : Cluster) (env : Env) (σ σ' : Sched)
    (r r' : Result) :
  answers cl (client env) →
  main env σ = Some r → main env σ' = Some r' →
  stdout r = stdout r' ∧ report_of r = report_of r' ∧
  (report_of r = None → status r = status r').
Proof.
  intros Hans H H'. assert (H0 := H). assert (H0' := H').
  unfold main in H, H'.
  destruct (decide (cluster env = "")); [by simplify_eq|].
  destruct (negb (configLoads env)); [by simplify_eq|].
  destruct (listServices _ _) as [arns|]; [|by simplify_eq].
  destruct (decide (length arns = 0)); [by simplify_eq|].
  destruct (deriveNames arns) as [[names m]|]; [|by simplify_eq].
  destruct (listTasksPool _ _ (sched1 σ)) as [st1|] eqn:Hr1; [|done].
  destruct (listTasksPool _ _ (sched1 σ')) as [st1'|] eqn:Hr1'; [|done].
  unfold pool_end in H, H'.
  rewrite (listTasksPool_no_crash _ _ _ _ Hr1) in H.
  rewrite (listTasksPool_no_crash _ _ _ _ Hr1') in H'.
  destruct (Pool.pc st1) eqn:Hpc1; [done|].
  destruct (Pool.pc st1') eqn:Hpc1'; [done|].
  destruct (listTasksPool_returned _ _ _ _ Hr1 Hpc1) as (Hperm & _).
  destruct (listTasksPool_returned _ _ _ _ Hr1' Hpc1') as (Hperm' & _).
  destruct (Pool.shared st1) as [tasks owner].
  destruct (Pool.shared st1') as [tasks' owner']. simpl in Hperm, Hperm'.
  assert (length tasks = length tasks') as Hlen by (by rewrite Hperm, Hperm').
  rewrite <- Hlen in H'.
  destruct (decide (length tasks = 0)); [by simplify_eq|].
  assert (∀ b tasks task, DescribeTasks (client env) b = Some tasks →
            task ∈ tasks → is_Some (task_ids task)) as Hids.
  { destruct Hans as (_ & Hdescr & _). intros b ts task Eb Ht.
    destruct (Hdescr b) as (ts' & Eb' & Hts). rewrite Eb in Eb'.
    injection Eb' as <-. apply Hts in Ht as (t & _ & ->). by eexists. }
  destruct (describe_loop_total (client env) owner tasks (length tasks) 0
              (mkDesc ∅ ∅ 0 []) Hids) as [d Hd].
  destruct (describe_loop_total (client env) owner' tasks' (length tasks') 0
              (mkDesc ∅ ∅ 0 []) Hids) as [d' Hd'].
  unfold describeTasks in H, H'. rewrite Hd in H. rewrite Hd' in H'.
  case_bool_decide; [|done]. case_bool_decide; [|done].
  destruct (describeDefsPool _ _ (defOrder σ) _) as [st2|] eqn:Hr2; [|done].
  destruct (describeDefsPool _ _ (defOrder σ') _) as [st2'|] eqn:Hr2'; [|done].
  assert (∀ owners defs cs st,
    describeDefsPool (client env) owners defs cs = Some st →
    Pool.crashed st = false) as Hsafe.
  { intros owners defs cs st Hrun. destruct (Pool.crashed st) eqn:Hcr; [|done].
    destruct Hans as (_ & _ & Hdefn).
    destruct (describeDefsPool_crash _ _ _ _ _ Hrun Hcr)
      as (td & _ & [E|(containers & cn & E & Hcn & Himg)]);
      destruct (Hdefn td) as (containers' & E' & Hcont); rewrite E in E'; [done|].
    injection E' as <-. apply Hcont in Hcn as (img & _ & ->). done. }
  rewrite (Hsafe _ _ _ _ Hr2) in H. rewrite (Hsafe _ _ _ _ Hr2') in H'.
  destruct (Pool.pc st2); [done|]. destruct (Pool.pc st2'); [done|].
  simplify_eq. simpl. split; [done|]. split; [|done]. unfold report_of. simpl.
  f_equal. apply same_entries.
  - intros img S. by apply (report_inhabited _ _ _ _ img S H0).
  - intros img S. by apply (report_inhabited _ _ _ _ img S H0').
  - intros img s.
    rewrite (report_entries _ _ _ _ _ Hans H0 img s).
    by rewrite (report_entries _ _ _ _ _ Hans H0' img s).
Qed.

Lemma report_schedule_independent_witness :
  ∃ r r', main Demo.env_two Demo.overlapped = Some r ∧
          main Demo.env_two (seq_run Demo.env_two) = Some r' ∧
          stdout r = stdout r' ∧ report_of r = report_of r' ∧
          (report_of r = None → status r = status r').
Proof.
  eexists _, _. split; [vm_compute; reflexivity|].
  split; [vm_compute; reflexivity|].
  eapply (report_schedule_independent Demo.cl_two Demo.env_two Demo.overlapped
            (seq_run Demo.env_two));
    [apply answers_client_of|vm_compute; reflexivity|vm_compute; reflexivity].
Defined.

(** The causes of a run-time panic. *)
Lemma panic_cases (env : Env) (σ : Sched) (r : Result) :
  main env σ = Some r → status r = RuntimePanic →
  (∃ arns, listServices (ListServicesPages (client env)) [] = Some arns ∧
           "" ∈ arns) ∨
  (∃ b tasks task, DescribeTasks (client env) b = Some tasks ∧ task ∈ tasks ∧
     (TaskArn task = None ∨ TaskDefinitionArn task = None)) ∨
  (∃ td, DescribeTaskDefinition (client env) td = Some None ∨
     ∃ containers cn,
       DescribeTaskDefinition (client env) td = Some (Some containers) ∧
       cn ∈ containers ∧ Image cn = None).
Proof.
  intros H Hst. unfold main in H.
  destruct (decide (cluster env = "")); [by simplify_eq|].
  destruct (negb (configLoads env)); [by simplify_eq|].
  destruct (listServices _ _) as [arns|]; [|by simplify_eq].
  destruct (decide (length arns = 0)); [by simplify_eq|].
  destruct (deriveNames arns) as [[names m]|] eqn:Hn; cycle 1.
  { left. exists arns. split; [done|]. by apply (names_loop_None arns) in Hn. }
  destruct (listTasksPool _ _ _) as [st1|] eqn:Hr1; [|done].
  unfold pool_end in H. rewrite (listTasksPool_no_crash _ _ _ _ Hr1) in H.
  destruct (Pool.pc st1); [done|]. destruct (Pool.shared st1) as [tasks owner].
  destruct (decide (length tasks = 0)); [by simplify_eq|].
  destruct (describeTasks _ _ _) as [d|] eqn:Hd; cycle 1.
  { right. left. unfold describeTasks in Hd.
    apply describe_loop_None in Hd as (k & ts & task & _ & Eb & Ht & Hnil); [|lia].
    by eexists _, ts, task. }
  case_bool_decide; [|done].
  destruct (describeDefsPool _ _ _ _) as [st2|] eqn:Hr2; [|done].
  destruct (Pool.crashed st2) eqn:Hcr.
  - right. right.
    destruct (describeDefsPool_crash _ _ _ _ _ Hr2 Hcr) as (td & _ & Hcause).
    by exists td.
  - destruct (Pool.pc st2); [done|]. by simplify_eq.
Qed.

(** X13: a run ends in a run-time panic only when the enumeration holds
    an empty identifier, or a bulk description answers with a task that
    lacks its identifier or that of its definition, or the description
    of a task definition comes without the definition or with a
    container that has no image. *)
Theorem panic_causes (env : Env) (σ : Sched) (r : Result) :
  main env σ = Some r → status r = RuntimePanic →
  (∃ arns, listServices (ListServicesPages (client env)) [] = Some arns ∧
           "" ∈ arns) ∨
  (∃ b tasks task, DescribeTasks (client env) b = Some tasks ∧ task ∈ tasks ∧
     (TaskArn task = None ∨ TaskDefinitionArn task = None)) ∨
  (∃ td, DescribeTaskDefinition (client env) td = Some None ∨
     ∃ containers cn,
       DescribeTaskDefinition (client env) td = Some (Some containers) ∧
       cn ∈ containers ∧ Image cn = None).
Proof. apply panic_cases. Qed.

Lemma panic_causes_witness :
  ∃ r, main Demo.env_blank (seq_run Demo.env_blank) = Some r ∧
    ((∃ arns, listServices (ListServicesPages (client Demo.env_blank)) [] = Some arns ∧
              "" ∈ arns) ∨
     (∃ b tasks task, DescribeTasks (client Demo.env_blank) b = Some tasks ∧
        task ∈ tasks ∧ (TaskArn task = None ∨ TaskDefinitionArn task = None)) ∨
     (∃ td, DescribeTaskDefinition (client Demo.env_blank) td = Some None ∨
        ∃ containers cn,
          DescribeTaskDefinition (client Demo.env_blank) td = Some (Some containers) ∧
          cn ∈ containers ∧ Image cn = None)).
Proof.
  eexists. split; [vm_compute; reflexivity|].
  eapply (panic_causes Demo.env_blank (seq_run Demo.env_blank));
    [vm_compute; reflexivity|reflexivity].
Defined.




